(** * Tic-Tac-Toe: the game engine and the theme preference of [script.js]

    A shallow embedding of the module-level [state] object, of the functions
    [checkWinner], [isDraw], [restartGame] and [handleCellClick] that read and
    mutate it, and of the part of [initTheme] that computes the theme handed
    to [applyTheme].  The DOM calls ([renderBoard], [updateTurnDisplay],
    [showMessage]) only read [state]; they and the storage write of
    [applyTheme] are embedded apart, in the parts on the page and on the
    theme storage, so that the game engine can be read on its own. *)

From Stdlib Require Import ZArith Bool String Lia.
From stdpp Require Import base list strings gmap.

Local Open Scope Z_scope.
Local Open Scope nat_scope.

(** ** JavaScript values that occur *)

(** The two player strings ['X'] and ['O']. *)
Inductive marker : Type := X | O.

#[global] Instance marker_eq_dec : EqDecision marker.
Proof. solve_decision. Defined.

(** A board cell holds [null] ([None]) or a player string. *)
Abbreviation cell := (option marker).

(** What an element read [state.board[i]] evaluates to: a read outside the
    array gives [undefined]. *)
Inductive jsval : Type :=
| JUndefined
| JNull
| JMarker (m : marker).

#[global] Instance jsval_eq_dec : EqDecision jsval.
Proof. solve_decision. Defined.

(** Truthiness, as used by [val && ...]: [null] and [undefined] are falsy,
    the non-empty strings ['X'] and ['O'] are truthy. *)
Definition truthy (v : jsval) : bool :=
  match v with
  | JMarker _ => true
  | JUndefined | JNull => false
  end.

(** [v === w] on these values. *)
Definition strict_eq (v w : jsval) : bool := bool_decide (v = w).

(** The result of [parseInt(cell.dataset.index, 10)]: an integer, or [NaN]
    when the attribute is missing or does not start with digits. *)
Inductive jsnum : Type :=
| Num (z : Z)
| NaN.

(** ** The state object *)

Abbreviation Board := (list cell).

(** One entry of [WIN_LINES]. *)
Abbreviation line := (nat * nat * nat)%type.

Record State : Type := mkState {
  board : Board;
  currentPlayer : marker;
  gameOver : bool;
  winner : option marker;
  winningLine : option line;
}.

(** [Array(9).fill(null)] *)
Definition empty_board : Board := replicate 9 None.

(** The object literal bound to [state] when the script is loaded. *)
Definition initial_state : State :=
  {| board := empty_board;
     currentPlayer := X;
     gameOver := false;
     winner := None;
     winningLine := None |}.

Definition WIN_LINES : list line :=
  [ (0, 1, 2);  (* top row *)
    (3, 4, 5);  (* middle row *)
    (6, 7, 8);  (* bottom row *)
    (0, 3, 6);  (* left column *)
    (1, 4, 7);  (* middle column *)
    (2, 5, 8);  (* right column *)
    (0, 4, 8);  (* diagonal *)
    (2, 4, 6)   (* anti-diagonal *) ].

(** ** Array access *)

(** [b[i]] for an array index [i]. *)
Definition get (b : Board) (i : nat) : jsval :=
  match b !! i with
  | None => JUndefined
  | Some None => JNull
  | Some (Some m) => JMarker m
  end.

(** [b[index]] for a number produced by [parseInt]: a negative number and
    [NaN] name no element of the array, so the read is [undefined]. *)
Definition get_num (b : Board) (index : jsnum) : jsval :=
  match index with
  | Num z => if (0 <=? z)%Z then get b (Z.to_nat z) else JUndefined
  | NaN => JUndefined
  end.

(** [b[index] = v].  The only assignment in the program sits behind the guard
    [state.board[index] !== null], which lets it run only when the element
    exists (lemma [get_num_null_in_bounds] below), so it never extends the
    array and is the in-place update of an existing element. *)
Definition set_num (b : Board) (index : jsnum) (v : cell) : Board :=
  match index with
  | Num z => if (0 <=? z)%Z then <[Z.to_nat z := v]> b else b
  | NaN => b
  end.

(** ** Game logic *)

Record WinResult : Type := mkWin {
  res_winner : marker;
  res_line : line;
}.

(** The test of one line inside the loop of [checkWinner]: [Some val] when
    [val && board[a] === board[b] && board[b] === board[c]] holds. *)
Definition line_winner (b : Board) (l : line) : option marker :=
  let '(a, b', c) := l in
  let val := get b a in
  if truthy val
     && strict_eq (get b a) (get b b')
     && strict_eq (get b b') (get b c)
  then match val with
       | JMarker m => Some m
       | JUndefined | JNull => None
       end
  else None.

(** The [for ... of] loop over the lines still to be looked at. *)
Fixpoint scan_lines (b : Board) (ls : list line) : option WinResult :=
  match ls with
  | [] => None
  | l :: rest =>
      match line_winner b l with
      | Some val => Some {| res_winner := val; res_line := l |}
      | None => scan_lines b rest
      end
  end.

Definition checkWinner (s : State) : option WinResult :=
  scan_lines (board s) WIN_LINES.

(** [state.board.every((cell) => cell !== null)] *)
Definition isDraw (s : State) : bool :=
  forallb (fun c : cell => bool_decide (c <> None)) (board s).

Definition restartGame (s : State) : State :=
  {| board := empty_board;
     currentPlayer := X;
     gameOver := false;
     winner := None;
     winningLine := None |}.

(** [state.currentPlayer === 'X' ? 'O' : 'X'] *)
Definition other (p : marker) : marker :=
  if bool_decide (p = X) then O else X.

(** A click event, as far as the handler looks at it: whether the target
    carries the class [cell], and what [parseInt] makes of its
    [data-index]. *)
Record Event : Type := mkEvent {
  target_is_cell : bool;
  target_index : jsnum;
}.

Definition handleCellClick (event : Event) (s : State) : State :=
  if negb (target_is_cell event) then s
  else
    let index := target_index event in
    if gameOver s || negb (strict_eq (get_num (board s) index) JNull) then s
    else
      let s1 :=
        {| board := set_num (board s) index (Some (currentPlayer s));
           currentPlayer := currentPlayer s;
           gameOver := gameOver s;
           winner := winner s;
           winningLine := winningLine s |} in
      match checkWinner s1 with
      | Some result =>
          {| board := board s1;
             currentPlayer := currentPlayer s1;
             gameOver := true;
             winner := Some (res_winner result);
             winningLine := Some (res_line result) |}
      | None =>
          if isDraw s1 then
            {| board := board s1;
               currentPlayer := currentPlayer s1;
               gameOver := true;
               winner := winner s1;
               winningLine := winningLine s1 |}
          else
            {| board := board s1;
               currentPlayer := other (currentPlayer s1);
               gameOver := gameOver s1;
               winner := winner s1;
               winningLine := winningLine s1 |}
      end.

(** A click on the cell whose [data-index] parses to [index]. *)
Definition click (index : jsnum) : Event :=
  {| target_is_cell := true; target_index := index |}.

(** The clicks on the cells numbered [0..8] of the page. *)
Definition click_cell (i : nat) : Event := click (Num (Z.of_nat i)).

(** A run of the page: the handlers called one after the other. *)
Inductive Action : Type :=
| Click (event : Event)
| Restart.

Definition step (s : State) (a : Action) : State :=
  match a with
  | Click event => handleCellClick event s
  | Restart => restartGame s
  end.

Definition run (s : State) (acts : list Action) : State :=
  fold_left step acts s.

(** The script ends with [restartGame()], so every later state comes from
    that call by clicks and restarts. *)
Inductive reachable : State -> Prop :=
| reach_init : reachable (restartGame initial_state)
| reach_step s a : reachable s -> reachable (step s a).

(** ** Theme preference *)

(** How a call that may throw ends. *)
Inductive outcome (A : Type) : Type :=
| Returned (a : A)
| Thrown.
Arguments Returned {A} a.
Arguments Thrown {A}.

(** [localStorage.getItem]: for a key it returns the stored string or
    [null], or the access throws. *)
Definition Storage : Type := string -> outcome (option string).

Definition THEME_STORAGE_KEY : string := "tic-tac-toe-theme".

(** The array literal tested with [includes] in [initTheme]. *)
Definition THEMES : list string :=
  ["dark"; "light"; "retro"; "ocean"; "sunset"; "forest"]%string.

(** [THEMES.includes(v)] *)
Definition includes (l : list string) (v : string) : bool :=
  existsb (String.eqb v) l.

(** [item || 'dark']: [null] and the empty string are falsy. *)
Definition or_dark (item : option string) : string :=
  match item with
  | None => "dark"
  | Some EmptyString => "dark"
  | Some v => v
  end.

(** The body of the [try] block of [initTheme]: the value of [saved] when
    the block completes, or [Thrown] when [getItem] throws (no later
    statement of the block can). *)
Definition initTheme_try (localStorage : Storage) : outcome string :=
  match localStorage THEME_STORAGE_KEY with
  | Thrown => Thrown
  | Returned item =>
      let saved := or_dark item in
      if negb (includes THEMES saved) then Returned "dark"%string
      else Returned saved
  end.

(** [initTheme] up to the call [applyTheme(saved)]: the value of [saved]
    handed over.  [saved] starts as ['dark'] and the [catch] block leaves it
    alone, so a throw inside [try] before the assignment gives ['dark']. *)
Definition initTheme (localStorage : Storage) : outcome string :=
  let saved := "dark"%string in
  match initTheme_try localStorage with
  | Returned saved' => Returned saved'
  | Thrown => (* catch (e) { /* ignore */ } *) Returned saved
  end.

(** ** Vocabulary of the statements *)

(** Cell [i] of the board holds marker [m]. *)
Definition holds (b : Board) (i : nat) (m : marker) : Prop :=
  b !! i = Some (Some m).

(** All three cells of [l] hold [m]. *)
Definition line_complete (b : Board) (l : line) (m : marker) : Prop :=
  holds b l.1.1 m ∧ holds b l.1.2 m ∧ holds b l.2 m.

Definition winning_line_exists (b : Board) : Prop :=
  ∃ l m, l ∈ WIN_LINES ∧ line_complete b l m.

(** Each of the nine cells is occupied. *)
Definition board_full (b : Board) : Prop :=
  ∀ i, i < 9 → ∃ m, holds b i m.

(** The move is accepted: neither guard of [handleCellClick] returns. *)
Definition accepted (event : Event) (s : State) : bool :=
  target_is_cell event
  && negb (gameOver s)
  && strict_eq (get_num (board s) (target_index event)) JNull.

(** The board after the assignment [state.board[index] = state.currentPlayer]. *)
Definition written (event : Event) (s : State) : Board :=
  set_num (board s) (target_index event) (Some (currentPlayer s)).

(** Number of cells holding [m]. *)
Fixpoint count (m : marker) (b : Board) : nat :=
  match b with
  | [] => 0
  | c :: rest => (if bool_decide (c = Some m) then 1 else 0) + count m rest
  end.

(** Clicks only, each handled in turn. *)
Definition play (s : State) (events : list Event) : State :=
  fold_left (fun s e => handleCellClick e s) events s.

(** Every click of the sequence is an accepted move where it happens. *)
Fixpoint all_accepted (s : State) (events : list Event) : bool :=
  match events with
  | [] => true
  | e :: rest => accepted e s && all_accepted (handleCellClick e s) rest
  end.

(** The marker of the [k]-th accepted move of a game, counting from 0. *)
Definition mover (k : nat) : marker := if Nat.even k then X else O.

(** The state between the assignment to the board and the win check. *)
Definition after_write (event : Event) (s : State) : State :=
  {| board := written event s;
     currentPlayer := currentPlayer s;
     gameOver := gameOver s;
     winner := winner s;
     winningLine := winningLine s |}.

(** The index lies outside [0..8] or is [NaN]. *)
Definition out_of_range (index : jsnum) : Prop :=
  match index with
  | Num z => (z < 0 ∨ 8 < z)%Z
  | NaN => True
  end.

(** The reading of the alternation rule under which the winning move is the
    only accepted move that leaves [currentPlayer] as it was. *)
Definition alternation_with_single_exception : Prop :=
  ∀ (events : list Event) (e : Event),
    all_accepted initial_state (events ++ [e]) = true →
    currentPlayer (play initial_state events) = mover (length events)
    ∧ (currentPlayer (play initial_state (events ++ [e]))
       = currentPlayer (play initial_state events)
       ↔ winning_line_exists (board (play initial_state (events ++ [e])))).

(** What holds of every reachable state: nine cells; [winner],
    [winningLine] and [gameOver] agree with what [checkWinner] and [isDraw]
    say of the board; the marker counts agree with whose turn it is. *)
Record invariant (s : State) : Prop := mkInv {
  inv_length : length (board s) = 9;
  inv_winner : winner s = res_winner <$> checkWinner s;
  inv_line : winningLine s = res_line <$> checkWinner s;
  inv_over : gameOver s = bool_decide (is_Some (checkWinner s)) || isDraw s;
  inv_turn :
    if gameOver s
    then (currentPlayer s = X ∧ count X (board s) = count O (board s) + 1)
         ∨ (currentPlayer s = O ∧ count X (board s) = count O (board s))
    else (currentPlayer s = X ∧ count X (board s) = count O (board s))
         ∨ (currentPlayer s = O ∧ count X (board s) = count O (board s) + 1);
}.

(** ** The page: what the handlers draw *)

(** An element of the page, as far as the script touches it: its class
    list, its text and (for the cell buttons) [disabled]. *)
Record Element : Type := mkElement {
  classList : list string;
  textContent : string;
  disabled : bool;
}.

(** [el.classList.add(token)]: the token is appended unless present. *)
Definition classList_add (token : string) (l : list string) : list string :=
  if bool_decide (token ∈ l) then l else l ++ [token].

(** [el.classList.remove(t1, t2, ...)] *)
Definition classList_remove (tokens : list string) (l : list string) : list string :=
  filter (fun t => t ∉ tokens) l.

(** The player string itself, as the template literals print it. *)
Definition marker_string (m : marker) : string :=
  match m with X => "X" | O => "O" end.

(** [player.toLowerCase()] *)
Definition toLowerCase (m : marker) : string :=
  match m with X => "x" | O => "o" end.

Definition updateTurnDisplay (s : State) (turnDisplayEl : Element) : Element :=
  let cl :=
    classList_remove ["player-x"; "player-o"; "game-over"]
                     (classList turnDisplayEl) in
  if gameOver s then
    let cl := classList_add "game-over" cl in
    match winner s with
    | Some w =>
        {| classList := cl;
           textContent := "Player " +:+ marker_string w +:+ " wins!";
           disabled := disabled turnDisplayEl |}
    | None =>
        {| classList := cl;
           textContent := "It's a draw!";
           disabled := disabled turnDisplayEl |}
    end
  else
    let player := currentPlayer s in
    {| classList := classList_add ("player-" +:+ toLowerCase player) cl;
       textContent := "Player " +:+ marker_string player +:+ "'s turn";
       disabled := disabled turnDisplayEl |}.

(** The elements [showMessage] writes to: the overlay and the text in it. *)
Definition showMessage (s : State) (messageOverlayEl messageTextEl : Element)
  : Element * Element :=
  let overlay :=
    {| classList := classList_remove ["hidden"] (classList messageOverlayEl);
       textContent := textContent messageOverlayEl;
       disabled := disabled messageOverlayEl |} in
  let cl := classList_remove ["win-x"; "win-o"; "draw"] (classList messageTextEl) in
  match winner s with
  | Some w =>
      (overlay,
       {| classList := classList_add ("win-" +:+ toLowerCase w) cl;
          textContent := "Player " +:+ marker_string w +:+ " wins!";
          disabled := disabled messageTextEl |})
  | None =>
      (overlay,
       {| classList := classList_add "draw" cl;
          textContent := "It's a draw!";
          disabled := disabled messageTextEl |})
  end.

(** [state.winningLine.includes(index)] *)
Definition line_includes (l : line) (index : nat) : bool :=
  let '(a, b, c) := l in
  bool_decide (index = a) || bool_decide (index = b) || bool_decide (index = c).

(** The body of the [forEach] callback of [renderBoard] for the cell at
    position [index] of the node list. *)
Definition render_cell (s : State) (index : nat) (cell : Element) : Element :=
  let value := get (board s) index in
  let text := match value with
              | JMarker m => marker_string m
              | JUndefined | JNull => EmptyString
              end in
  let cl := ["cell"%string] in
  let cl := match value with
            | JMarker m => classList_add (toLowerCase m) cl
            | JUndefined | JNull => cl
            end in
  let cl := match winningLine s with
            | Some l => if line_includes l index then classList_add "winning" cl
                        else cl
            | None => cl
            end in
  {| classList := cl; textContent := text; disabled := gameOver s |}.

(** [renderBoard], on the node list [boardEl.querySelectorAll('.cell')]. *)
Definition renderBoard (s : State) (cells : list Element) : list Element :=
  imap (render_cell s) cells.

(** The elements the game handlers write to. *)
Record Page : Type := mkPage {
  turnDisplayEl : Element;
  messageOverlayEl : Element;
  messageTextEl : Element;
  cells : list Element;
}.

(** [restartGame] with its effects on the page. *)
Definition restartGame_page (sp : State * Page) : State * Page :=
  let '(s, p) := sp in
  let s := restartGame s in
  let overlay :=
    {| classList := classList_add "hidden" (classList (messageOverlayEl p));
       textContent := textContent (messageOverlayEl p);
       disabled := disabled (messageOverlayEl p) |} in
  (s, {| turnDisplayEl := updateTurnDisplay s (turnDisplayEl p);
         messageOverlayEl := overlay;
         messageTextEl := messageTextEl p;
         cells := renderBoard s (cells p) |}).

(** [handleCellClick] with its effects on the page: the two guards return
    before anything is drawn; past them the state is updated as
    [handleCellClick] above does (lines 171-182), the board and the turn
    display are drawn, and the message is shown when the game is over. *)
Definition handleCellClick_page (event : Event) (sp : State * Page) : State * Page :=
  let '(s, p) := sp in
  if negb (target_is_cell event) then (s, p)
  else
    let index := target_index event in
    if gameOver s || negb (strict_eq (get_num (board s) index) JNull) then (s, p)
    else
      let s := handleCellClick event s in
      let p := {| turnDisplayEl := updateTurnDisplay s (turnDisplayEl p);
                  messageOverlayEl := messageOverlayEl p;
                  messageTextEl := messageTextEl p;
                  cells := renderBoard s (cells p) |} in
      if gameOver s then
        let '(overlay, text) :=
          showMessage s (messageOverlayEl p) (messageTextEl p) in
        (s, {| turnDisplayEl := turnDisplayEl p;
               messageOverlayEl := overlay;
               messageTextEl := text;
               cells := cells p |})
      else (s, p).

(** The state and page after the script has loaded (it ends with
    [restartGame()]) and the handlers have run any number of times. *)
Inductive page_reachable : State * Page -> Prop :=
| page_init p : page_reachable (restartGame_page (initial_state, p))
| page_click event sp :
    page_reachable sp -> page_reachable (handleCellClick_page event sp)
| page_restart sp :
    page_reachable sp -> page_reachable (restartGame_page sp).

(** The page shows the state: drawing it again would change nothing, and
    the overlay is hidden exactly while the game runs. *)
Definition up_to_date (sp : State * Page) : Prop :=
  renderBoard sp.1 (cells sp.2) = cells sp.2
  ∧ updateTurnDisplay sp.1 (turnDisplayEl sp.2) = turnDisplayEl sp.2
  ∧ ("hidden"%string ∈ classList (messageOverlayEl sp.2) ↔ gameOver sp.1 = false)
  ∧ (gameOver sp.1 = true →
       showMessage sp.1 (messageOverlayEl sp.2) (messageTextEl sp.2)
       = (messageOverlayEl sp.2, messageTextEl sp.2)).

(** ** The theme and its storage *)

(** The browser's [localStorage]: the stored items, and whether reading or
    writing throws (storage disabled, quota exceeded). *)
Record LocalStorage : Type := mkLocalStorage {
  items : gmap string string;
  get_throws : bool;
  set_throws : bool;
}.

Definition getItem (ls : LocalStorage) : Storage :=
  fun key => if get_throws ls then Thrown else Returned (items ls !! key).

Definition setItem (ls : LocalStorage) (key value : string) : outcome LocalStorage :=
  if set_throws ls then Thrown
  else Returned {| items := <[key := value]> (items ls);
                   get_throws := get_throws ls;
                   set_throws := set_throws ls |}.

(** What [applyTheme] writes to: the [data-theme] attribute of the root
    element, the value of the theme selector (a selector that offers every
    theme assigned to it, so that it reads back what was assigned), and the
    storage. *)
Record ThemeDoc : Type := mkThemeDoc {
  data_theme : option string;
  themeSelect_value : string;
  localStorage : LocalStorage;
}.

Definition applyTheme (theme : string) (d : ThemeDoc) : ThemeDoc :=
  {| data_theme := Some theme;
     themeSelect_value := theme;
     localStorage :=
       match setItem (localStorage d) THEME_STORAGE_KEY theme with
       | Returned ls => ls
       | Thrown => (* catch (e) { ignore } *) localStorage d
       end |}.

(** [initTheme] with its effects: [saved] is computed as in [initTheme]
    above and handed to [applyTheme]. *)
Definition initTheme_page (d : ThemeDoc) : ThemeDoc :=
  let saved := "dark"%string in
  let saved := match initTheme_try (getItem (localStorage d)) with
               | Returned saved' => saved'
               | Thrown => saved
               end in
  applyTheme saved d.

(** [handleThemeChange]: it reads [themeSelectEl.value], the option the
    user has just chosen. *)
Definition handleThemeChange (d : ThemeDoc) : ThemeDoc :=
  applyTheme (themeSelect_value d) d.

(** ** Array access lemmas *)

Lemma get_JNull b i : get b i = JNull ↔ b !! i = Some None.
Proof.
  unfold get. destruct (b !! i) as [[m|]|]; split; congruence.
Qed.

Lemma get_JMarker b i m : get b i = JMarker m ↔ holds b i m.
Proof.
  unfold get, holds. destruct (b !! i) as [[m'|]|]; split; congruence.
Qed.

Lemma get_JUndefined b i : get b i = JUndefined ↔ length b ≤ i.
Proof.
  rewrite <- lookup_ge_None. unfold get.
  destruct (b !! i) as [[m'|]|]; split; congruence.
Qed.

(** The guard [state.board[index] !== null] is passed only by an index that
    names an existing (and empty) element. *)
Lemma get_num_null_in_bounds b index :
  get_num b index = JNull →
  ∃ i, index = Num (Z.of_nat i) ∧ b !! i = Some None ∧ i < length b.
Proof.
  destruct index as [z|]; simpl; [|discriminate].
  destruct (Z.leb_spec 0 z) as [Hz|Hz]; [|discriminate].
  intros Hn%get_JNull. exists (Z.to_nat z).
  split; [f_equal; lia|]. split; [done|]. by eapply lookup_lt_Some.
Qed.

Lemma strict_eq_true v w : strict_eq v w = true ↔ v = w.
Proof. unfold strict_eq. apply bool_decide_eq_true. Qed.

Lemma accepted_true event s :
  accepted event s = true ↔
  target_is_cell event = true ∧ gameOver s = false
  ∧ get_num (board s) (target_index event) = JNull.
Proof.
  unfold accepted. rewrite !andb_true_iff, negb_true_iff, strict_eq_true.
  tauto.
Qed.

Lemma written_lookup event s :
  accepted event s = true →
  ∃ i, target_index event = Num (Z.of_nat i)
       ∧ board s !! i = Some None
       ∧ written event s = <[i := Some (currentPlayer s)]> (board s).
Proof.
  intros (_ & _ & Hn)%accepted_true.
  destruct (get_num_null_in_bounds _ _ Hn) as (i & Hi & Hl & _).
  exists i. split; [done|]. split; [done|].
  unfold written. rewrite Hi. simpl.
  destruct (Z.leb_spec 0 (Z.of_nat i)); [|lia]. by rewrite Nat2Z.id.
Qed.

(** ** The win scan *)

Lemma line_winner_Some b l m : line_winner b l = Some m ↔ line_complete b l m.
Proof.
  destruct l as [[x y] z]. unfold line_winner, line_complete; simpl.
  rewrite <- !get_JMarker.
  destruct (get b x) as [| |v] eqn:Hx; simpl;
    try (split; [discriminate|intros [? _]; discriminate]).
  destruct (strict_eq (JMarker v) (get b y)) eqn:Hy; simpl.
  - apply strict_eq_true in Hy. rewrite <- Hy.
    destruct (strict_eq (JMarker v) (get b z)) eqn:Hz.
    + apply strict_eq_true in Hz. rewrite <- Hz. split.
      * intros [= ->]. done.
      * intros ([= ->] & _). done.
    + split; [discriminate|]. intros ([= ->] & _ & Hc).
      rewrite Hc in Hz. unfold strict_eq in Hz.
      by rewrite bool_decide_eq_false in Hz.
  - split; [discriminate|]. intros ([= ->] & Hc & _).
    rewrite Hc in Hy. unfold strict_eq in Hy.
    by rewrite bool_decide_eq_false in Hy.
Qed.

Lemma line_winner_None b l : line_winner b l = None ↔ ∀ m, ¬ line_complete b l m.
Proof.
  split.
  - intros Hn m Hc%line_winner_Some. congruence.
  - intros Hn. destruct (line_winner b l) as [m|] eqn:Hl; [|done].
    apply line_winner_Some in Hl. by destruct (Hn m).
Qed.

(** The loop returns at the first line that passes the test. *)
Lemma scan_lines_Some b ls r :
  scan_lines b ls = Some r →
  ∃ k, ls !! k = Some (res_line r)
       ∧ line_winner b (res_line r) = Some (res_winner r)
       ∧ ∀ j l, j < k → ls !! j = Some l → line_winner b l = None.
Proof.
  induction ls as [|l0 rest IH]; simpl; [discriminate|].
  destruct (line_winner b l0) as [v|] eqn:H0.
  - intros [= <-]. exists 0. simpl. split; [done|]. split; [done|]. lia.
  - intros (k & Hk & Hw & Hfirst)%IH. exists (S k). split; [done|].
    split; [done|]. intros [|j] l Hj; simpl.
    + by intros [= <-].
    + apply Hfirst. lia.
Qed.

Lemma scan_lines_None b ls :
  scan_lines b ls = None ↔ ∀ l, l ∈ ls → line_winner b l = None.
Proof.
  induction ls as [|l0 rest IH]; simpl.
  - split; [|done]. intros _ l Hl. by apply elem_of_nil in Hl.
  - destruct (line_winner b l0) as [v|] eqn:H0.
    + split; [discriminate|]. intros Hall.
      rewrite Hall in H0 by apply list_elem_of_here. discriminate.
    + rewrite IH. split.
      * intros Hall l [->|Hl]%elem_of_cons; auto.
      * intros Hall l Hl. apply Hall. by apply list_elem_of_further.
Qed.

Lemma checkWinner_None s :
  checkWinner s = None ↔ ¬ winning_line_exists (board s).
Proof.
  unfold checkWinner. rewrite scan_lines_None. split.
  - intros Hall (l & m & Hl & Hc). apply line_winner_Some in Hc.
    rewrite Hall in Hc by done. discriminate.
  - intros Hn l Hl. apply line_winner_None. intros m Hc.
    apply Hn. by exists l, m.
Qed.

Lemma checkWinner_Some s :
  is_Some (checkWinner s) ↔ winning_line_exists (board s).
Proof.
  destruct (checkWinner s) as [r|] eqn:Hc.
  - split; [intros _|by eauto].
    apply scan_lines_Some in Hc as (k & Hk & Hw & _).
    exists (res_line r), (res_winner r). split.
    + apply list_elem_of_lookup. by exists k.
    + by apply line_winner_Some.
  - apply checkWinner_None in Hc. split; [by intros [? [=]]|done].
Qed.

(** ** The draw test *)

Lemma isDraw_true s :
  isDraw s = true ↔ ∀ i c, board s !! i = Some c → c ≠ None.
Proof.
  unfold isDraw. rewrite forallb_forall. split.
  - intros Hall i c Hi. apply (bool_decide_unpack _).
    apply Is_true_true, Hall. apply list_elem_of_In, list_elem_of_lookup. eauto.
  - intros Hall c [i Hi]%list_elem_of_In%list_elem_of_lookup.
    apply bool_decide_eq_true. eauto.
Qed.

Lemma isDraw_full s :
  length (board s) = 9 → isDraw s = true ↔ board_full (board s).
Proof.
  intros Hlen. rewrite isDraw_true. unfold board_full, holds. split.
  - intros Hall i Hi.
    destruct (lookup_lt_is_Some_2 (board s) i) as [c Hc]; [lia|].
    destruct c as [m|]; [by exists m|]. by destruct (Hall i None).
  - intros Hfull i c Hi. assert (i < 9) as Hlt.
    { rewrite <- Hlen. by eapply lookup_lt_Some. }
    destruct (Hfull i Hlt) as [m Hm]. congruence.
Qed.

(** ** The three outcomes of a click *)

Lemma handleCellClick_rejected event s :
  accepted event s = false → handleCellClick event s = s.
Proof.
  unfold accepted, handleCellClick.
  destruct (target_is_cell event); simpl; [|done].
  destruct (gameOver s); simpl; [done|].
  by intros ->.
Qed.

Lemma handleCellClick_accepted event s :
  accepted event s = true →
  handleCellClick event s =
    match checkWinner (after_write event s) with
    | Some result =>
        mkState (written event s) (currentPlayer s) true
                (Some (res_winner result)) (Some (res_line result))
    | None =>
        if isDraw (after_write event s)
        then mkState (written event s) (currentPlayer s) true
                     (winner s) (winningLine s)
        else mkState (written event s) (other (currentPlayer s)) false
                     (winner s) (winningLine s)
    end.
Proof.
  intros (Hc & Hg & Hn)%accepted_true.
  unfold handleCellClick, checkWinner, isDraw, after_write, written.
  rewrite Hc, Hn. simpl. by rewrite !Hg.
Qed.

Lemma handleCellClick_board event s :
  accepted event s = true → board (handleCellClick event s) = written event s.
Proof.
  intros Ha. rewrite (handleCellClick_accepted _ _ Ha).
  destruct (checkWinner _); [done|]. by destruct (isDraw _).
Qed.

Lemma written_length event s : length (written event s) = length (board s).
Proof.
  unfold written, set_num. destruct (target_index event) as [z|]; [|done].
  destruct (0 <=? z)%Z; [|done]. apply length_insert.
Qed.

(** ** Counting markers *)

Lemma count_insert m p (b : Board) i :
  b !! i = Some None →
  count m (<[i := Some p]> b) = count m b + (if bool_decide (p = m) then 1 else 0).
Proof.
  revert i. induction b as [|c rest IH]; intros [|i]; simpl; try discriminate.
  - intros [= ->]. rewrite (bool_decide_eq_false_2 (None = Some m)) by discriminate.
    destruct (decide (p = m)) as [->|Hne].
    + rewrite !bool_decide_eq_true_2 by done. lia.
    + rewrite !bool_decide_eq_false_2 by congruence. lia.
  - intros Hi. rewrite (IH _ Hi). lia.
Qed.

Lemma count_written event s m :
  accepted event s = true →
  count m (written event s)
  = count m (board s) + (if bool_decide (currentPlayer s = m) then 1 else 0).
Proof.
  intros (i & _ & Hi & ->)%written_lookup. by apply count_insert.
Qed.

Lemma other_X : other X = O.
Proof. reflexivity. Qed.

Lemma other_O : other O = X.
Proof. reflexivity. Qed.

Lemma other_neq p : other p ≠ p.
Proof. by destruct p. Qed.

(** ** The invariant of the reachable states *)

Lemma invariant_initial : invariant initial_state.
Proof. split; simpl; try reflexivity. left. done. Qed.

Lemma invariant_restart s : invariant (restartGame s).
Proof. apply invariant_initial. Qed.

Lemma invariant_click event s :
  invariant s → invariant (handleCellClick event s).
Proof.
  intros [Hlen Hw Hl Hover Hturn].
  destruct (accepted event s) eqn:Ha.
  2:{ rewrite handleCellClick_rejected by done. by split. }
  rewrite (handleCellClick_accepted _ _ Ha).
  pose proof (count_written event s X Ha) as HcX.
  pose proof (count_written event s O Ha) as HcO.
  apply accepted_true in Ha as (_ & Hg & _).
  rewrite Hg in Hover, Hturn. symmetry in Hover.
  apply orb_false_iff in Hover as [Hnow _].
  apply bool_decide_eq_false in Hnow.
  assert (checkWinner s = None) as Hnone.
  { destruct (checkWinner s); [|done]. destruct Hnow. eauto. }
  rewrite Hnone in Hw, Hl. simpl in Hw, Hl.
  change (checkWinner (after_write event s))
    with (scan_lines (written event s) WIN_LINES).
  change (isDraw (after_write event s))
    with (forallb (fun c : cell => bool_decide (c <> None)) (written event s)).
  destruct (scan_lines (written event s) WIN_LINES) as [r|] eqn:Hscan;
    [|destruct (forallb _ (written event s)) eqn:Hfull];
    (split; unfold checkWinner, isDraw;
     cbn [board currentPlayer gameOver winner winningLine];
     rewrite ?Hscan, ?Hfull, ?written_length, ?HcX, ?HcO; try done).
  - destruct Hturn as [[-> E]|[-> E]]; simpl; [left|right]; split; try done; lia.
  - destruct Hturn as [[-> E]|[-> E]]; simpl; [left|right]; split; try done; lia.
  - destruct Hturn as [[-> E]|[-> E]]; simpl; [right|left]; split; try done; lia.
Qed.

Lemma reachable_invariant s : reachable s → invariant s.
Proof.
  induction 1 as [|s [event|] _ IH]; simpl.
  - apply invariant_restart.
  - by apply invariant_click.
  - apply invariant_restart.
Qed.

Lemma reachable_run acts : reachable (run (restartGame initial_state) acts).
Proof.
  unfold run. generalize (reach_init).
  generalize (restartGame initial_state) as s.
  induction acts as [|a rest IH]; intros s Hs; simpl; [done|].
  apply IH. by constructor.
Qed.

(** ** The move operation *)

(** C1: on an accepted move (the game is not over and the clicked cell is
    empty) whose written board has a triple of [WIN_LINES] with three equal
    markers, [handleCellClick] ends in the state with the written board,
    [gameOver = true], [winner] the marker of the first such triple in the
    order of the eight [WIN_LINES], [winningLine] that triple, and
    [currentPlayer] as before the move. *)
Theorem winning_move_sets_first_line (s : State) (index : jsnum) :
  gameOver s = false →
  get_num (board s) index = JNull →
  winning_line_exists (written (click index) s) →
  length WIN_LINES = 8 ∧
  ∃ k l m,
    WIN_LINES !! k = Some l
    ∧ line_complete (written (click index) s) l m
    ∧ (∀ j l' m', j < k → WIN_LINES !! j = Some l' →
         ¬ line_complete (written (click index) s) l' m')
    ∧ handleCellClick (click index) s
      = {| board := written (click index) s;
           currentPlayer := currentPlayer s;
           gameOver := true;
           winner := Some m;
           winningLine := Some l |}.
Proof.
  intros Hg Hn Hex. split; [reflexivity|].
  assert (accepted (click index) s = true) as Ha by by apply accepted_true.
  rewrite (handleCellClick_accepted _ _ Ha).
  apply (checkWinner_Some (after_write (click index) s)) in Hex as [r Hr].
  rewrite Hr. apply scan_lines_Some in Hr as (k & Hk & Hw & Hfirst).
  change (board (after_write (click index) s))
    with (written (click index) s) in Hw, Hfirst.
  exists k, (res_line r), (res_winner r). split; [done|].
  split; [by apply line_winner_Some|]. split; [|done].
  intros j l' m' Hj Hl' Hc%line_winner_Some.
  rewrite (Hfirst j l' Hj Hl') in Hc. discriminate.
Qed.

Lemma winning_move_sets_first_line_witness :
  let s := play initial_state (map click_cell [0; 3; 1; 4]) in
  gameOver s = false ∧
  get_num (board s) (Num 2) = JNull ∧
  winning_line_exists (written (click (Num 2)) s) ∧
  length WIN_LINES = 8 ∧
  ∃ k l m,
    WIN_LINES !! k = Some l
    ∧ line_complete (written (click (Num 2)) s) l m
    ∧ (∀ j l' m', j < k → WIN_LINES !! j = Some l' →
         ¬ line_complete (written (click (Num 2)) s) l' m')
    ∧ handleCellClick (click (Num 2)) s
      = {| board := written (click (Num 2)) s;
           currentPlayer := currentPlayer s;
           gameOver := true;
           winner := Some m;
           winningLine := Some l |}.
Proof.
  intros s.
  assert (winning_line_exists (written (click (Num 2)) s)) as Hex.
  { exists (0, 1, 2), X. split; [apply list_elem_of_here|].
    repeat split; vm_compute; reflexivity. }
  assert (gameOver s = false) as Hg by (vm_compute; reflexivity).
  assert (get_num (board s) (Num 2) = JNull) as Hn by (vm_compute; reflexivity).
  split; [exact Hg|]. split; [exact Hn|]. split; [exact Hex|].
  exact (winning_move_sets_first_line s (Num 2) Hg Hn Hex).
Defined.

(** C2: on an accepted move from a reachable state that fills the ninth
    cell, the game is over; when the written board has no winning line the
    result is a draw ([winner] and [winningLine] stay absent), and when it
    has one the result is a win ([winner] and [winningLine] are set to a
    completed line), never a draw. *)
Theorem full_board_draw_only_without_line (s : State) (index : jsnum) :
  reachable s →
  gameOver s = false →
  get_num (board s) index = JNull →
  board_full (written (click index) s) →
  board (handleCellClick (click index) s) = written (click index) s
  ∧ gameOver (handleCellClick (click index) s) = true
  ∧ (¬ winning_line_exists (written (click index) s) →
       winner (handleCellClick (click index) s) = None
       ∧ winningLine (handleCellClick (click index) s) = None)
  ∧ (winning_line_exists (written (click index) s) →
       ∃ m l, winner (handleCellClick (click index) s) = Some m
              ∧ winningLine (handleCellClick (click index) s) = Some l
              ∧ l ∈ WIN_LINES
              ∧ line_complete (written (click index) s) l m).
Proof.
  intros Hr Hg Hn Hfull.
  assert (accepted (click index) s = true) as Ha by by apply accepted_true.
  pose proof (reachable_invariant _ Hr) as [Hlen Hw Hl Hover _].
  rewrite Hg in Hover. symmetry in Hover.
  apply orb_false_iff in Hover as [Hnow _]. apply bool_decide_eq_false in Hnow.
  assert (checkWinner s = None) as Hnone.
  { destruct (checkWinner s); [|done]. destruct Hnow. eauto. }
  rewrite Hnone in Hw, Hl. simpl in Hw, Hl.
  assert (isDraw (after_write (click index) s) = true) as Hdraw.
  { apply isDraw_full; [|done].
    change (board (after_write (click index) s)) with (written (click index) s).
    by rewrite written_length. }
  split; [by apply handleCellClick_board|].
  rewrite (handleCellClick_accepted _ _ Ha), Hdraw.
  destruct (checkWinner (after_write (click index) s)) as [r|] eqn:Hc.
  - split; [done|]. split.
    + intros Hno.
      apply (checkWinner_None (after_write (click index) s)) in Hno. congruence.
    + intros _. apply scan_lines_Some in Hc as (k & Hk & Hwin & _).
      change (board (after_write (click index) s))
        with (written (click index) s) in Hwin.
      exists (res_winner r), (res_line r). split; [done|]. split; [done|].
      split; [apply list_elem_of_lookup; by exists k|].
      by apply line_winner_Some.
  - split; [done|]. split; [done|].
    intros Hex. apply checkWinner_None in Hc. by destruct Hc.
Qed.

Lemma full_board_draw_only_without_line_witness :
  let s := run (restartGame initial_state)
               (map (fun i => Click (click_cell i)) [0; 1; 2; 4; 3; 5; 7; 6]) in
  (reachable s ∧ gameOver s = false ∧ get_num (board s) (Num 8) = JNull
   ∧ board_full (written (click (Num 8)) s))
  ∧ gameOver (handleCellClick (click (Num 8)) s) = true
  ∧ winner (handleCellClick (click (Num 8)) s) = None
  ∧ winningLine (handleCellClick (click (Num 8)) s) = None.
Proof.
  intros s.
  assert (reachable s) as Hr by apply reachable_run.
  assert (board_full (written (click (Num 8)) s)) as Hfull.
  { intros i Hi.
    do 9 (destruct i as [|i]; [eexists; vm_compute; reflexivity|]). lia. }
  assert (gameOver s = false) as Hg by (vm_compute; reflexivity).
  assert (get_num (board s) (Num 8) = JNull) as Hn by (vm_compute; reflexivity).
  split; [split; [exact Hr|split; [exact Hg|split; [exact Hn|exact Hfull]]]|].
  destruct (full_board_draw_only_without_line s (Num 8) Hr Hg Hn Hfull)
    as (_ & Hover & Hdraw & _).
  split; [exact Hover|]. apply Hdraw.
  apply (checkWinner_None (after_write (click (Num 8)) s)).
  vm_compute; reflexivity.
Defined.

(** C3: when [gameOver] is true or the clicked cell already holds a marker,
    [handleCellClick] returns at its guard: the whole state (board,
    [currentPlayer], [gameOver], [winner], [winningLine]) is unchanged.  The
    handler has no throwing path, which the model shows by being a total
    function to [State]. *)
Theorem rejected_move_is_noop (s : State) (index : jsnum) :
  gameOver s = true ∨ (∃ m, get_num (board s) index = JMarker m) →
  handleCellClick (click index) s = s.
Proof.
  intros Hrej. apply handleCellClick_rejected.
  unfold accepted. simpl. destruct Hrej as [->|[m ->]]; [done|].
  by rewrite andb_false_r.
Qed.

Lemma rejected_move_is_noop_witness :
  let s := handleCellClick (click_cell 0) initial_state in
  (gameOver s = true ∨ ∃ m, get_num (board s) (Num 0) = JMarker m)
  ∧ handleCellClick (click (Num 0)) s = s.
Proof.
  intros s.
  assert (gameOver s = true ∨ ∃ m, get_num (board s) (Num 0) = JMarker m) as H.
  { right. exists X. vm_compute; reflexivity. }
  split; [exact H|]. exact (rejected_move_is_noop s (Num 0) H).
Defined.

(** C4: [restartGame] has no guard and from every state gives the initial
    state: nine empty cells, ['X'] to move, [gameOver = false], no
    [winner], no [winningLine]. *)
Theorem restartGame_initial (s : State) :
  restartGame s
  = {| board := [None; None; None; None; None; None; None; None; None];
       currentPlayer := X;
       gameOver := false;
       winner := None;
       winningLine := None |}
  ∧ restartGame s = initial_state.
Proof. split; reflexivity. Qed.

(** C9: the clicks on cells 0, 3, 1, 4, 2 from the initial state leave ['X']
    on cells 0, 1 and 2, with [gameOver = true], [winner = 'X'] and
    [winningLine = [0, 1, 2]]. *)
Theorem top_row_scenario :
  play initial_state (map click_cell [0; 3; 1; 4; 2])
  = {| board := [Some X; Some X; Some X; Some O; Some O; None; None; None; None];
       currentPlayer := X;
       gameOver := true;
       winner := Some X;
       winningLine := Some (0, 1, 2) |}.
Proof. vm_compute; reflexivity. Qed.

(** C10: on a nine-cell board a click whose index is outside [0..8] or is
    [NaN] reads [undefined] from the board, [undefined !== null] is true, and
    the handler returns at its guard with the state unchanged: nothing is
    written outside the nine cells. *)
Theorem out_of_range_click_is_noop (s : State) (index : jsnum) :
  length (board s) = 9 →
  out_of_range index →
  get_num (board s) index = JUndefined
  ∧ negb (strict_eq JUndefined JNull) = true
  ∧ handleCellClick (click index) s = s.
Proof.
  intros Hlen Hout.
  assert (get_num (board s) index = JUndefined) as Hu.
  { destruct index as [z|]; simpl; [|done].
    destruct (Z.leb_spec 0 z) as [Hz|Hz]; [|done].
    apply get_JUndefined. simpl in Hout. lia. }
  split; [done|]. split; [done|].
  apply handleCellClick_rejected. unfold accepted. simpl.
  rewrite Hu. simpl. by rewrite andb_false_r.
Qed.

Lemma out_of_range_click_is_noop_witness :
  (length (board initial_state) = 9 ∧ out_of_range (Num 9))
  ∧ get_num (board initial_state) (Num 9) = JUndefined
  ∧ negb (strict_eq JUndefined JNull) = true
  ∧ handleCellClick (click (Num 9)) initial_state = initial_state.
Proof.
  assert (out_of_range (Num 9)) as Hout by (simpl; lia).
  assert (length (board initial_state) = 9) as Hlen by reflexivity.
  split; [split; [exact Hlen|exact Hout]|].
  exact (out_of_range_click_is_noop initial_state (Num 9) Hlen Hout).
Defined.

(** ** Invariants of the reachable states *)

Lemma invariant_gameOver s :
  invariant s →
  gameOver s = true ↔ winning_line_exists (board s) ∨ board_full (board s).
Proof.
  intros [Hlen _ _ Hover _].
  by rewrite Hover, orb_true_iff, bool_decide_eq_true, checkWinner_Some,
    (isDraw_full _ Hlen).
Qed.

(** C6: in every state reachable from the initial one by clicks and
    restarts, [gameOver] is true exactly when the board has a winning line or
    is full, and [winner] is set exactly when the board has a winning line
    (so it is absent in a draw). *)
Theorem gameOver_and_winner_characterised (s : State) :
  reachable s →
  (gameOver s = true ↔ winning_line_exists (board s) ∨ board_full (board s))
  ∧ (is_Some (winner s) ↔ winning_line_exists (board s))
  ∧ (¬ winning_line_exists (board s) → winner s = None).
Proof.
  intros Hinv%reachable_invariant.
  split; [by apply invariant_gameOver|].
  destruct Hinv as [_ Hw _ _ _]. rewrite Hw, <- checkWinner_Some. split.
  - by rewrite fmap_is_Some.
  - intros Hno. destruct (checkWinner s); [|done]. destruct Hno. eauto.
Qed.

Lemma gameOver_and_winner_characterised_witness :
  let s := run (restartGame initial_state)
               (map (fun i => Click (click_cell i)) [0; 3; 1; 4; 2]) in
  reachable s
  ∧ (gameOver s = true ↔ winning_line_exists (board s) ∨ board_full (board s))
  ∧ (is_Some (winner s) ↔ winning_line_exists (board s))
  ∧ (¬ winning_line_exists (board s) → winner s = None).
Proof.
  intros s.
  assert (reachable s) as Hr by apply reachable_run.
  split; [exact Hr|]. exact (gameOver_and_winner_characterised s Hr).
Defined.

(** C7: in every reachable state the numbers of ['X'] and ['O'] cells
    differ by at most one, while the game is not over the number of ['X']
    equals that of ['O'] or exceeds it by one, and an accepted move raises
    the count of the mover's marker by one and leaves the other count as it
    was. *)
Theorem marker_counts_balanced (s : State) (event : Event) :
  reachable s →
  (count X (board s) ≤ count O (board s) + 1
   ∧ count O (board s) ≤ count X (board s) + 1)
  ∧ (gameOver s = false →
       count X (board s) = count O (board s)
       ∨ count X (board s) = count O (board s) + 1)
  ∧ (accepted event s = true →
       count (currentPlayer s) (board (handleCellClick event s))
       = count (currentPlayer s) (board s) + 1
       ∧ count (other (currentPlayer s)) (board (handleCellClick event s))
         = count (other (currentPlayer s)) (board s)).
Proof.
  intros [_ _ _ _ Hturn]%reachable_invariant. split; [|split].
  - destruct (gameOver s); destruct Hturn as [[_ E]|[_ E]]; lia.
  - intros Hg. rewrite Hg in Hturn. destruct Hturn as [[_ E]|[_ E]]; auto.
  - intros Ha. rewrite (handleCellClick_board _ _ Ha), !(count_written _ _ _ Ha).
    rewrite bool_decide_eq_true_2 by done.
    rewrite bool_decide_eq_false_2; [lia|].
    intros E. by apply (other_neq (currentPlayer s)).
Qed.

Lemma marker_counts_balanced_witness :
  let s := run (restartGame initial_state)
               (map (fun i => Click (click_cell i)) [4; 0; 8]) in
  reachable s
  ∧ (count X (board s) ≤ count O (board s) + 1
     ∧ count O (board s) ≤ count X (board s) + 1)
  ∧ (gameOver s = false →
       count X (board s) = count O (board s)
       ∨ count X (board s) = count O (board s) + 1)
  ∧ accepted (click_cell 2) s = true
  ∧ count (currentPlayer s) (board (handleCellClick (click_cell 2) s))
    = count (currentPlayer s) (board s) + 1
  ∧ count (other (currentPlayer s)) (board (handleCellClick (click_cell 2) s))
    = count (other (currentPlayer s)) (board s).
Proof.
  intros s.
  assert (reachable s) as Hr by apply reachable_run.
  assert (accepted (click_cell 2) s = true) as Ha by (vm_compute; reflexivity).
  destruct (marker_counts_balanced s (click_cell 2) Hr) as (Hb & Hn & Hm).
  split; [exact Hr|]. split; [exact Hb|]. split; [exact Hn|].
  split; [exact Ha|]. exact (Hm Ha).
Defined.

(** ** Theme preference *)

Lemma includes_true l v : includes l v = true ↔ v ∈ l.
Proof.
  unfold includes. rewrite existsb_exists, list_elem_of_In. split.
  - intros (x & Hx & ->%String.eqb_eq). done.
  - intros Hv. exists v. split; [done|]. apply String.eqb_refl.
Qed.

Lemma or_dark_Some v : v ≠ EmptyString → or_dark (Some v) = v.
Proof. by destruct v. Qed.

(** C8: the load of the theme never throws.  When the storage access
    throws, when nothing is stored, and when the stored string is not one
    of [dark], [light], [retro], [ocean], [sunset], [forest], the theme
    is ['dark']; when the stored string is one of the six, the theme is that
    string. *)
Theorem initTheme_total_with_default (localStorage : Storage) :
  THEMES = ["dark"; "light"; "retro"; "ocean"; "sunset"; "forest"]%string
  ∧ ∃ theme,
      initTheme localStorage = Returned theme
      ∧ match localStorage THEME_STORAGE_KEY with
        | Thrown => theme = "dark"%string
        | Returned None => theme = "dark"%string
        | Returned (Some v) =>
            (v ∈ THEMES → theme = v) ∧ (v ∉ THEMES → theme = "dark"%string)
        end.
Proof.
  split; [reflexivity|].
  unfold initTheme, initTheme_try.
  destruct (localStorage THEME_STORAGE_KEY) as [[v|]|].
  - destruct (String.string_dec v EmptyString) as [->|Hne].
    + exists "dark"%string. split; [reflexivity|]. split; [|done].
      intros Hin%includes_true. discriminate.
    + rewrite (or_dark_Some _ Hne).
      destruct (includes THEMES v) eqn:Hin; simpl.
      * exists v. split; [done|]. split; [done|].
        intros Hnot. by apply includes_true in Hin.
      * exists "dark"%string. split; [done|]. split; [|done].
        intros Hv%includes_true. congruence.
  - exists "dark"%string. by split.
  - exists "dark"%string. by split.
Qed.

(** The scenarios of the specification: a throwing storage, an empty
    storage, the unknown value ["neon"], and a known value. *)
Example initTheme_scenarios :
  initTheme (fun _ => Thrown) = Returned "dark"%string
  ∧ initTheme (fun _ => Returned None) = Returned "dark"%string
  ∧ initTheme (fun _ => Returned (Some "neon"%string)) = Returned "dark"%string
  ∧ initTheme (fun _ => Returned (Some "ocean"%string)) = Returned "ocean"%string.
Proof. repeat split; vm_compute; reflexivity. Qed.

(** ** Alternation of the players *)

Lemma play_app s events1 events2 :
  play s (events1 ++ events2) = play (play s events1) events2.
Proof. apply fold_left_app. Qed.

Lemma play_run s events : play s events = run s (map Click events).
Proof.
  revert s. induction events as [|e rest IH]; intros s; [done|]. apply IH.
Qed.

Lemma all_accepted_app s events1 events2 :
  all_accepted s (events1 ++ events2)
  = all_accepted s events1 && all_accepted (play s events1) events2.
Proof.
  revert s. induction events1 as [|e rest IH]; intros s; simpl; [done|].
  by rewrite IH, andb_assoc.
Qed.

Lemma reachable_play events : reachable (play initial_state events).
Proof. rewrite play_run. apply (reachable_run (map Click events)). Qed.

Lemma mover_S k : mover (S k) = other (mover k).
Proof.
  unfold mover. rewrite Nat.even_succ, <- Nat.negb_even.
  by destruct (Nat.even k).
Qed.

(** After [k] accepted moves that leave the game running it is the turn of
    [mover k]. *)
Lemma currentPlayer_play events :
  all_accepted initial_state events = true →
  gameOver (play initial_state events) = false →
  currentPlayer (play initial_state events) = mover (length events).
Proof.
  induction events as [|e events IH] using rev_ind; [done|].
  rewrite all_accepted_app, play_app, length_app, Nat.add_1_r, mover_S.
  simpl. rewrite andb_true_r.
  intros [Hall Ha]%andb_true_iff.
  rewrite (handleCellClick_accepted _ _ Ha).
  pose proof Ha as (_ & Hg & _)%accepted_true.
  destruct (checkWinner _); [discriminate|].
  destruct (isDraw _); [discriminate|]. simpl. intros _.
  by rewrite IH.
Qed.

(** C5 (as amended): in a game played by accepted moves from the initial
    state, the [k]-th move (from 0) writes ['X'] when [k] is even and ['O']
    when [k] is odd; after the move [currentPlayer] is toggled when the game
    goes on and is left as it was when the move ends the game, which happens
    exactly when the move completes a winning line or fills the board. *)
Theorem movers_alternate_until_game_over (events : list Event) (e : Event) :
  all_accepted initial_state (events ++ [e]) = true →
  currentPlayer (play initial_state events) = mover (length events)
  ∧ (∃ i, target_index e = Num (Z.of_nat i)
          ∧ board (play initial_state events) !! i = Some None
          ∧ board (play initial_state (events ++ [e]))
            = <[i := Some (mover (length events))]>
                (board (play initial_state events)))
  ∧ (gameOver (play initial_state (events ++ [e])) = false →
       currentPlayer (play initial_state (events ++ [e]))
       = other (currentPlayer (play initial_state events)))
  ∧ (gameOver (play initial_state (events ++ [e])) = true →
       currentPlayer (play initial_state (events ++ [e]))
       = currentPlayer (play initial_state events))
  ∧ (gameOver (play initial_state (events ++ [e])) = true ↔
       winning_line_exists (board (play initial_state (events ++ [e])))
       ∨ board_full (board (play initial_state (events ++ [e])))).
Proof.
  rewrite all_accepted_app, play_app. simpl. rewrite andb_true_r.
  intros [Hall Ha]%andb_true_iff.
  pose proof Ha as (_ & Hg & _)%accepted_true.
  pose proof (currentPlayer_play events Hall Hg) as Hcp.
  split; [done|]. split; [|split; [|split]].
  - destruct (written_lookup _ _ Ha) as (i & Hi & Hl & Hw). exists i.
    by rewrite (handleCellClick_board _ _ Ha), Hw, Hcp.
  - rewrite (handleCellClick_accepted _ _ Ha).
    destruct (checkWinner _); [discriminate|]. by destruct (isDraw _).
  - rewrite (handleCellClick_accepted _ _ Ha).
    destruct (checkWinner _); [done|]. by destruct (isDraw _).
  - apply invariant_gameOver, invariant_click, reachable_invariant,
      reachable_play.
Qed.

Lemma movers_alternate_until_game_over_witness :
  all_accepted initial_state (map click_cell [0; 3; 1; 4] ++ [click_cell 2]) = true
  ∧ currentPlayer (play initial_state (map click_cell [0; 3; 1; 4])) = mover 4
  ∧ gameOver (play initial_state (map click_cell [0; 3; 1; 4] ++ [click_cell 2]))
    = true
  ∧ currentPlayer (play initial_state (map click_cell [0; 3; 1; 4] ++ [click_cell 2]))
    = currentPlayer (play initial_state (map click_cell [0; 3; 1; 4])).
Proof.
  assert (all_accepted initial_state
            (map click_cell [0; 3; 1; 4] ++ [click_cell 2]) = true) as Hall
    by (vm_compute; reflexivity).
  split; [exact Hall|].
  destruct (movers_alternate_until_game_over
              (map click_cell [0; 3; 1; 4]) (click_cell 2) Hall)
    as (Hcp & _ & _ & Hover & _).
  assert (gameOver (play initial_state
                      (map click_cell [0; 3; 1; 4] ++ [click_cell 2])) = true)
    as Hg by (vm_compute; reflexivity).
  split; [exact Hcp|]. split; [exact Hg|exact (Hover Hg)].
Defined.

(** C5 (as stated) fails: the ninth move of the drawn game 0, 1, 2, 4, 3, 5,
    7, 6, 8 is accepted, completes no line, and still leaves [currentPlayer]
    as it was, so the winning move is not the only move after which the
    player is not toggled. *)
Lemma draw_move_does_not_toggle :
  ¬ alternation_with_single_exception.
Proof.
  intros Hclaim.
  destruct (Hclaim (map click_cell [0; 1; 2; 4; 3; 5; 7; 6]) (click_cell 8))
    as [_ [Hline _]]; [vm_compute; reflexivity|].
  assert (¬ winning_line_exists
            (board (play initial_state
                      (map click_cell [0; 1; 2; 4; 3; 5; 7; 6] ++ [click_cell 8]))))
    as Hno by (apply checkWinner_None; vm_compute; reflexivity).
  apply Hno, Hline. vm_compute; reflexivity.
Qed.

(** ** Further properties of the game engine *)

Lemma play_game_over s events : gameOver s = true → play s events = s.
Proof.
  intros Hg. induction events as [|e rest IH]; simpl; [done|].
  rewrite handleCellClick_rejected; [done|].
  unfold accepted. by rewrite Hg, andb_false_r.
Qed.

(** X1: once [gameOver] is set, no sequence of clicks changes anything of
    the state. *)
Theorem game_over_absorbs_clicks (s : State) (events : list Event) :
  gameOver s = true → play s events = s.
Proof. apply play_game_over. Qed.

Lemma game_over_absorbs_clicks_witness :
  gameOver (play initial_state (map click_cell [0; 3; 1; 4; 2])) = true
  ∧ play (play initial_state (map click_cell [0; 3; 1; 4; 2]))
         (map click_cell [5; 6; 7; 8])
    = play initial_state (map click_cell [0; 3; 1; 4; 2]).
Proof.
  assert (gameOver (play initial_state (map click_cell [0; 3; 1; 4; 2])) = true)
    as Hg by (vm_compute; reflexivity).
  split; [exact Hg|].
  exact (game_over_absorbs_clicks _ (map click_cell [5; 6; 7; 8]) Hg).
Defined.

(** X2: an accepted click writes the mover's marker into the one clicked
    cell, which lies inside the array and was empty; the array keeps its
    length and every other cell keeps its content. *)
Theorem accepted_click_writes_one_cell (s : State) (event : Event) :
  accepted event s = true →
  ∃ i, target_index event = Num (Z.of_nat i)
       ∧ i < length (board s)
       ∧ board s !! i = Some None
       ∧ board (handleCellClick event s) !! i = Some (Some (currentPlayer s))
       ∧ length (board (handleCellClick event s)) = length (board s)
       ∧ ∀ j, j ≠ i → board (handleCellClick event s) !! j = board s !! j.
Proof.
  intros Ha. destruct (written_lookup _ _ Ha) as (i & Hi & Hl & Hw).
  pose proof (lookup_lt_Some _ _ _ Hl) as Hlt.
  exists i. rewrite (handleCellClick_board _ _ Ha), Hw.
  split; [done|]. split; [done|]. split; [done|].
  split; [by apply list_lookup_insert_eq|].
  split; [apply length_insert|].
  intros j Hj. by apply list_lookup_insert_ne.
Qed.

Lemma accepted_click_writes_one_cell_witness :
  accepted (click_cell 4) initial_state = true
  ∧ ∃ i, target_index (click_cell 4) = Num (Z.of_nat i)
       ∧ i < length (board initial_state)
       ∧ board initial_state !! i = Some None
       ∧ board (handleCellClick (click_cell 4) initial_state) !! i
         = Some (Some (currentPlayer initial_state))
       ∧ length (board (handleCellClick (click_cell 4) initial_state))
         = length (board initial_state)
       ∧ ∀ j, j ≠ i →
           board (handleCellClick (click_cell 4) initial_state) !! j
           = board initial_state !! j.
Proof.
  assert (accepted (click_cell 4) initial_state = true) as Ha
    by (vm_compute; reflexivity).
  split; [exact Ha|].
  exact (accepted_click_writes_one_cell initial_state (click_cell 4) Ha).
Defined.

Lemma handleCellClick_keeps_marks event s i m :
  holds (board s) i m → holds (board (handleCellClick event s)) i m.
Proof.
  intros Hm. destruct (accepted event s) eqn:Ha.
  - destruct (written_lookup _ _ Ha) as (j & _ & Hj & Hw).
    rewrite (handleCellClick_board _ _ Ha), Hw. unfold holds in *.
    rewrite list_lookup_insert_ne; [done|]. intros ->. congruence.
  - by rewrite handleCellClick_rejected.
Qed.

(** X3: a marker once on the board is never erased or overwritten by
    clicks: whatever cell holds a marker still holds the same marker after
    any sequence of clicks. *)
Theorem marks_are_permanent (s : State) (events : list Event) (i : nat) (m : marker) :
  holds (board s) i m → holds (board (play s events)) i m.
Proof.
  revert s. induction events as [|e rest IH]; intros s Hm; simpl; [done|].
  by apply IH, handleCellClick_keeps_marks.
Qed.

Lemma marks_are_permanent_witness :
  holds (board (handleCellClick (click_cell 4) initial_state)) 4 X
  ∧ holds (board (play (handleCellClick (click_cell 4) initial_state)
                       (map click_cell [4; 0; 4; 8])))
          4 X.
Proof.
  assert (holds (board (handleCellClick (click_cell 4) initial_state)) 4 X)
    as Hm by (vm_compute; reflexivity).
  split; [exact Hm|].
  exact (marks_are_permanent _ (map click_cell [4; 0; 4; 8]) 4 X Hm).
Defined.

(** X4: handling the same click twice in a row gives the state that
    handling it once gives: the second call always returns at a guard. *)
Theorem second_click_is_noop (s : State) (event : Event) :
  handleCellClick event (handleCellClick event s) = handleCellClick event s.
Proof.
  destruct (accepted event s) eqn:Ha.
  - apply handleCellClick_rejected.
    destruct (written_lookup _ _ Ha) as (i & Hi & Hl & Hw).
    pose proof (lookup_lt_Some _ _ _ Hl) as Hlt.
    unfold accepted. rewrite (handleCellClick_board _ _ Ha), Hw, Hi. simpl.
    destruct (Z.leb_spec 0 (Z.of_nat i)); [|lia]. rewrite Nat2Z.id.
    unfold get. rewrite list_lookup_insert_eq by done.
    change (strict_eq (JMarker (currentPlayer s)) JNull) with false.
    apply andb_false_r.
  - rewrite (handleCellClick_rejected _ _ Ha). by apply handleCellClick_rejected.
Qed.

(** X5: [checkWinner] on any board, of any length: it returns [null]
    exactly when no triple of [WIN_LINES] holds three equal markers, and
    otherwise the first such triple in the listed order together with the
    marker on it. *)
Theorem checkWinner_first_complete_line (s : State) :
  (checkWinner s = None ↔ ¬ winning_line_exists (board s))
  ∧ ∀ r, checkWinner s = Some r →
      ∃ k, WIN_LINES !! k = Some (res_line r)
           ∧ line_complete (board s) (res_line r) (res_winner r)
           ∧ ∀ j l m, j < k → WIN_LINES !! j = Some l →
               ¬ line_complete (board s) l m.
Proof.
  split; [apply checkWinner_None|].
  intros r (k & Hk & Hw & Hfirst)%scan_lines_Some. exists k.
  split; [done|]. split; [by apply line_winner_Some|].
  intros j l m Hj Hl Hc%line_winner_Some.
  rewrite (Hfirst j l Hj Hl) in Hc. discriminate.
Qed.

(** X6: in a reachable state [winningLine] is set exactly when [winner] is,
    and then it is one of the eight [WIN_LINES] and its three cells hold the
    winner's marker. *)
Theorem winningLine_is_completed (s : State) :
  reachable s →
  (is_Some (winningLine s) ↔ is_Some (winner s))
  ∧ ∀ l, winningLine s = Some l →
      l ∈ WIN_LINES ∧ ∃ m, winner s = Some m ∧ line_complete (board s) l m.
Proof.
  intros [_ Hw Hl _ _]%reachable_invariant. rewrite Hw, Hl.
  split; [by rewrite !fmap_is_Some|].
  destruct (checkWinner s) as [r|] eqn:Hc; simpl; [|discriminate].
  intros l [= <-]. apply scan_lines_Some in Hc as (k & Hk & Hwin & _).
  split; [apply list_elem_of_lookup; by exists k|].
  exists (res_winner r). split; [done|]. by apply line_winner_Some.
Qed.

Lemma winningLine_is_completed_witness :
  let s := run (restartGame initial_state)
               (map (fun i => Click (click_cell i)) [0; 3; 1; 4; 2]) in
  reachable s
  ∧ (is_Some (winningLine s) ↔ is_Some (winner s))
  ∧ ∀ l, winningLine s = Some l →
      l ∈ WIN_LINES ∧ ∃ m, winner s = Some m ∧ line_complete (board s) l m.
Proof.
  intros s.
  assert (reachable s) as Hr by apply reachable_run.
  split; [exact Hr|]. exact (winningLine_is_completed s Hr).
Defined.

Lemma empty_board_no_line l m : ¬ line_complete empty_board l m.
Proof.
  intros [Ha _]. unfold holds, empty_board in Ha.
  apply lookup_replicate in Ha as [? _]. discriminate.
Qed.

Lemma handleCellClick_currentPlayer event s :
  accepted event s = true →
  is_Some (checkWinner (after_write event s)) →
  currentPlayer (handleCellClick event s) = currentPlayer s.
Proof.
  intros Ha [r Hr]. by rewrite (handleCellClick_accepted _ _ Ha), Hr.
Qed.

(** Every completed line of a reachable board holds the marker of
    [currentPlayer]: the player who moved last. *)
Lemma reachable_lines_hold_mover s :
  reachable s →
  ∀ l m, l ∈ WIN_LINES → line_complete (board s) l m → m = currentPlayer s.
Proof.
  induction 1 as [|s [event|] Hr IH]; simpl.
  - intros l m _ Hc. by destruct (empty_board_no_line l m).
  - intros l m Hl Hc. destruct (accepted event s) eqn:Ha.
    2:{ rewrite handleCellClick_rejected in Hc |- * by done. eauto. }
    rewrite (handleCellClick_board _ _ Ha) in Hc.
    assert (winning_line_exists (written event s)) as Hex by by exists l, m.
    apply (checkWinner_Some (after_write event s)) in Hex.
    rewrite (handleCellClick_currentPlayer _ _ Ha Hex).
    destruct (decide (m = currentPlayer s)) as [|Hne]; [done|exfalso].
    pose proof (reachable_invariant _ Hr) as Hinv.
    pose proof Ha as (_ & Hg & _)%accepted_true.
    assert (¬ winning_line_exists (board s)) as Hno.
    { intros Hw. assert (gameOver s = true) as Hov
        by (apply (invariant_gameOver _ Hinv); by left).
      congruence. }
    destruct (written_lookup _ _ Ha) as (i & _ & Hi & Hw). rewrite Hw in Hc.
    apply Hno. exists l, m. split; [done|].
    assert (∀ x, holds (<[i:=Some (currentPlayer s)]> (board s)) x m →
                 holds (board s) x m) as Hback.
    { unfold holds. intros x Hx. destruct (decide (x = i)) as [->|Hxi].
      - rewrite list_lookup_insert_eq in Hx by by eapply lookup_lt_Some.
        congruence.
      - by rewrite list_lookup_insert_ne in Hx. }
    destruct Hc as (H1 & H2 & H3). repeat split; by apply Hback.
  - intros l m _ Hc. by destruct (empty_board_no_line l m).
Qed.

Lemma reachable_winner_line s m :
  reachable s → winner s = Some m →
  ∃ l, l ∈ WIN_LINES ∧ line_complete (board s) l m.
Proof.
  intros [_ Hw _ _ _]%reachable_invariant. rewrite Hw.
  destruct (checkWinner s) as [r|] eqn:Hc; simpl; [|discriminate].
  intros [= <-]. apply scan_lines_Some in Hc as (k & Hk & Hwin & _).
  exists (res_line r). split; [apply list_elem_of_lookup; by exists k|].
  by apply line_winner_Some.
Qed.

Lemma reachable_winner_is_mover s m :
  reachable s → winner s = Some m → currentPlayer s = m.
Proof.
  intros Hr Hw. destruct (reachable_winner_line s m Hr Hw) as (l & Hl & Hc).
  symmetry. by eapply reachable_lines_hold_mover.
Qed.

(** X7: in a reachable state every completed line of the board carries the
    same marker, that of the player who made the last move: the game is then
    over, [winner] is that marker and [currentPlayer] still names it.  In
    particular the two players never both have a completed line. *)
Theorem completed_lines_belong_to_last_mover (s : State) (l : line) (m : marker) :
  reachable s →
  l ∈ WIN_LINES →
  line_complete (board s) l m →
  gameOver s = true ∧ winner s = Some m ∧ currentPlayer s = m
  ∧ ∀ l' m', l' ∈ WIN_LINES → line_complete (board s) l' m' → m' = m.
Proof.
  intros Hr Hl Hc.
  pose proof (reachable_lines_hold_mover s Hr) as Hmover.
  pose proof (reachable_invariant s Hr) as Hinv.
  assert (winning_line_exists (board s)) as Hex by by exists l, m.
  split; [apply (invariant_gameOver _ Hinv); by left|].
  rewrite (Hmover l m Hl Hc). split; [|split; [done|]].
  - apply checkWinner_Some in Hex as [r Hr'].
    destruct Hinv as [_ Hw _ _ _]. rewrite Hw, Hr'. simpl. f_equal.
    apply scan_lines_Some in Hr' as (k & Hk & Hwin%line_winner_Some & _).
    eapply Hmover; [|done]. apply list_elem_of_lookup. by exists k.
  - intros l' m' Hl' Hc'. by apply (Hmover l').
Qed.

Lemma completed_lines_belong_to_last_mover_witness :
  let s := run (restartGame initial_state)
               (map (fun i => Click (click_cell i)) [0; 3; 1; 4; 2]) in
  (reachable s ∧ (0, 1, 2) ∈ WIN_LINES ∧ line_complete (board s) (0, 1, 2) X)
  ∧ gameOver s = true ∧ winner s = Some X ∧ currentPlayer s = X
  ∧ ∀ l' m', l' ∈ WIN_LINES → line_complete (board s) l' m' → m' = X.
Proof.
  intros s.
  assert (reachable s) as Hr by apply reachable_run.
  assert ((0, 1, 2) ∈ WIN_LINES) as Hl by apply list_elem_of_here.
  assert (line_complete (board s) (0, 1, 2) X) as Hc
    by (repeat split; vm_compute; reflexivity).
  split; [split; [exact Hr|split; [exact Hl|exact Hc]]|].
  exact (completed_lines_belong_to_last_mover s (0, 1, 2) X Hr Hl Hc).
Defined.

(** ** How long a game lasts *)

Lemma count_total_le (b : Board) : count X b + count O b ≤ length b.
Proof.
  induction b as [|c rest IH]; simpl; [done|].
  destruct c as [[|]|]; simpl; lia.
Qed.

Lemma count_total_full (b : Board) :
  forallb (fun c : cell => bool_decide (c <> None)) b = true →
  count X b + count O b = length b.
Proof.
  induction b as [|c rest IH]; simpl; [done|].
  intros [Hc Hrest]%andb_true_iff. specialize (IH Hrest).
  destruct c as [[|]|]; simpl in *; try discriminate; lia.
Qed.

Lemma count_line (b : Board) l m :
  length b = 9 → l ∈ WIN_LINES → line_complete b l m → 3 ≤ count m b.
Proof.
  intros Hlen Hl (H1 & H2 & H3). unfold holds in *.
  do 9 (destruct b as [|? b]; [simpl in Hlen; lia|]).
  destruct b; [clear Hlen|simpl in Hlen; lia].
  unfold WIN_LINES in Hl.
  repeat (apply elem_of_cons in Hl as [->|Hl]); [..|by apply elem_of_nil in Hl];
    simpl in *; simplify_eq; simpl;
    rewrite !(bool_decide_eq_true_2 (Some m = Some m)) by done;
    repeat case_bool_decide; lia.
Qed.

Lemma count_play s events :
  all_accepted s events = true →
  count X (board (play s events)) + count O (board (play s events))
  = count X (board s) + count O (board s) + length events.
Proof.
  revert s. induction events as [|e rest IH]; intros s; simpl; [lia|].
  intros [Ha Hrest]%andb_true_iff. rewrite (IH _ Hrest).
  rewrite (handleCellClick_board _ _ Ha), !(count_written _ _ _ Ha).
  destruct (currentPlayer s); simpl; lia.
Qed.

Lemma count_total_all (b : Board) :
  count X b + count O b = length b →
  forallb (fun c : cell => bool_decide (c <> None)) b = true.
Proof.
  induction b as [|c rest IH]; simpl; [done|].
  pose proof (count_total_le rest) as Hle.
  destruct c as [[|]|]; simpl; intros Hn; try (apply IH; lia). lia.
Qed.

(** X8: in a game played by accepted moves from the initial state the
    board holds as many markers as moves were made, of which the ['X'] are
    the rounded-up half and the ['O'] the rounded-down half; no game has more
    than nine accepted moves, and after a ninth the game is over. *)
Theorem moves_fill_the_board (events : list Event) :
  all_accepted initial_state events = true →
  count X (board (play initial_state events))
  + count O (board (play initial_state events)) = length events
  ∧ count X (board (play initial_state events)) = (length events + 1) / 2
  ∧ count O (board (play initial_state events)) = length events / 2
  ∧ length events ≤ 9
  ∧ (length events = 9 → gameOver (play initial_state events) = true).
Proof.
  intros Hall. pose proof (count_play _ _ Hall) as Hn. simpl in Hn.
  pose proof (reachable_invariant _ (reachable_play events))
    as [Hlen _ _ Hover Hturn].
  pose proof (count_total_le (board (play initial_state events))) as Hle.
  rewrite Hlen in Hle.
  assert (count X (board (play initial_state events))
          = count O (board (play initial_state events))
          ∨ count X (board (play initial_state events))
            = count O (board (play initial_state events)) + 1) as Hbal.
  { destruct (gameOver _); destruct Hturn as [[_ E]|[_ E]]; auto. }
  clear Hturn. split; [lia|]. split; [|split; [|split; [lia|]]].
  - destruct Hbal as [E|E];
      [apply (Nat.div_unique _ 2 _ 1)|apply (Nat.div_unique _ 2 _ 0)]; lia.
  - destruct Hbal as [E|E];
      [apply (Nat.div_unique _ 2 _ 0)|apply (Nat.div_unique _ 2 _ 1)]; lia.
  - intros H9. rewrite Hover. apply orb_true_iff. right.
    unfold isDraw. apply count_total_all. lia.
Qed.

Lemma moves_fill_the_board_witness :
  all_accepted initial_state (map click_cell [4; 0; 8]) = true
  ∧ count X (board (play initial_state (map click_cell [4; 0; 8])))
    + count O (board (play initial_state (map click_cell [4; 0; 8])))
    = length (map click_cell [4; 0; 8])
  ∧ count X (board (play initial_state (map click_cell [4; 0; 8])))
    = (length (map click_cell [4; 0; 8]) + 1) / 2
  ∧ count O (board (play initial_state (map click_cell [4; 0; 8])))
    = length (map click_cell [4; 0; 8]) / 2
  ∧ length (map click_cell [4; 0; 8]) ≤ 9
  ∧ (length (map click_cell [4; 0; 8]) = 9 →
       gameOver (play initial_state (map click_cell [4; 0; 8])) = true).
Proof.
  assert (all_accepted initial_state (map click_cell [4; 0; 8]) = true) as Hall
    by (vm_compute; reflexivity).
  split; [exact Hall|].
  exact (moves_fill_the_board (map click_cell [4; 0; 8]) Hall).
Defined.

(** X9: a game played by accepted moves from the initial state is not over
    before its fifth move. *)
Theorem no_result_before_fifth_move (events : list Event) :
  all_accepted initial_state events = true →
  gameOver (play initial_state events) = true →
  5 ≤ length events.
Proof.
  intros Hall Hover. pose proof (count_play _ _ Hall) as Hn. simpl in Hn.
  pose proof (reachable_invariant _ (reachable_play events)) as Hinv.
  pose proof Hinv as [Hlen _ _ Hov Hturn].
  rewrite Hover in Hturn.
  assert (count O (board (play initial_state events))
          ≤ count X (board (play initial_state events))
          ≤ count O (board (play initial_state events)) + 1) as Hbal
    by (destruct Hturn as [[_ E]|[_ E]]; lia).
  rewrite Hover in Hov. symmetry in Hov.
  apply orb_true_iff in Hov as [Hwin|Hdraw].
  - apply bool_decide_eq_true, checkWinner_Some in Hwin as (l & m & Hl & Hc).
    pose proof (count_line _ l m Hlen Hl Hc) as H3. destruct m; lia.
  - apply count_total_full in Hdraw. lia.
Qed.

Lemma no_result_before_fifth_move_witness :
  all_accepted initial_state (map click_cell [0; 3; 1; 4; 2]) = true
  ∧ gameOver (play initial_state (map click_cell [0; 3; 1; 4; 2])) = true
  ∧ 5 ≤ length (map click_cell [0; 3; 1; 4; 2]).
Proof.
  assert (all_accepted initial_state (map click_cell [0; 3; 1; 4; 2]) = true)
    as Hall by (vm_compute; reflexivity).
  assert (gameOver (play initial_state (map click_cell [0; 3; 1; 4; 2])) = true)
    as Hover by (vm_compute; reflexivity).
  split; [exact Hall|]. split; [exact Hover|].
  exact (no_result_before_fifth_move _ Hall Hover).
Defined.

(** ** Class lists *)

#[local] Set Warnings "-clear-no-such-hyp".

Lemma elem_of_classList_add t token l :
  t ∈ classList_add token l ↔ t = token ∨ t ∈ l.
Proof.
  unfold classList_add. case_bool_decide as Hin.
  - split; [by right|]. by intros [->|].
  - rewrite elem_of_app, list_elem_of_singleton. tauto.
Qed.

Lemma elem_of_classList_remove t tokens l :
  t ∈ classList_remove tokens l ↔ t ∈ l ∧ t ∉ tokens.
Proof. unfold classList_remove. rewrite list_elem_of_filter. tauto. Qed.

Lemma classList_remove_idemp tokens l :
  classList_remove tokens (classList_remove tokens l) = classList_remove tokens l.
Proof.
  unfold classList_remove. induction l as [|t l IH]; [done|].
  rewrite filter_cons. case_decide as Ht; [|done].
  rewrite filter_cons. case_decide as Ht'; [|done]. by rewrite IH.
Qed.

Lemma classList_remove_snoc tokens l token :
  token ∈ tokens →
  classList_remove tokens (l ++ [token]) = classList_remove tokens l.
Proof.
  intros Hin. unfold classList_remove. rewrite filter_app, filter_cons.
  case_decide as Hd; [done|]. rewrite filter_nil. apply app_nil_r.
Qed.

(** Removing a group of tokens and adding one of the group: doing it again
    gives the same list. *)
Lemma classList_swap_idemp tokens token l :
  token ∈ tokens →
  classList_add token
    (classList_remove tokens (classList_add token (classList_remove tokens l)))
  = classList_add token (classList_remove tokens l).
Proof.
  intros Hin. f_equal. unfold classList_add at 1. case_bool_decide as Hc.
  - apply elem_of_classList_remove in Hc as [_ Hc]. done.
  - rewrite classList_remove_snoc by done. apply classList_remove_idemp.
Qed.

(** ** Drawing twice *)

Lemma updateTurnDisplay_idemp s el :
  updateTurnDisplay s (updateTurnDisplay s el) = updateTurnDisplay s el.
Proof.
  unfold updateTurnDisplay. destruct (gameOver s).
  - destruct (winner s); simpl; f_equal; apply classList_swap_idemp;
      set_solver.
  - destruct (currentPlayer s); simpl; f_equal; apply classList_swap_idemp;
      set_solver.
Qed.

Lemma renderBoard_idemp s cells :
  renderBoard s (renderBoard s cells) = renderBoard s cells.
Proof.
  unfold renderBoard. apply list_eq. intros i.
  rewrite !list_lookup_imap. by destruct (cells !! i).
Qed.

Lemma showMessage_idemp s overlay text :
  showMessage s (showMessage s overlay text).1 (showMessage s overlay text).2
  = showMessage s overlay text.
Proof.
  unfold showMessage. destruct (winner s) as [[|]|]; simpl;
    rewrite classList_remove_idemp; do 2 f_equal;
    apply classList_swap_idemp; set_solver.
Qed.

Lemma showMessage_overlay s overlay text :
  "hidden"%string ∉ classList (showMessage s overlay text).1.
Proof.
  unfold showMessage. destruct (winner s); simpl;
    rewrite elem_of_classList_remove; intros [_ Hn];
    apply Hn, list_elem_of_here.
Qed.

(** ** The page follows the state *)

Lemma handleCellClick_page_state event sp :
  (handleCellClick_page event sp).1 = handleCellClick event sp.1.
Proof.
  destruct sp as [s p]. unfold handleCellClick_page. simpl.
  destruct (accepted event s) eqn:Ha.
  - apply accepted_true in Ha as (-> & -> & ->). simpl.
    destruct (gameOver (handleCellClick event s)); [|done].
    by destruct (showMessage _ _ _).
  - rewrite (handleCellClick_rejected _ _ Ha).
    unfold accepted in Ha. destruct (target_is_cell event); simpl; [|done].
    destruct (gameOver s); simpl; [done|]. simpl in Ha. by rewrite Ha.
Qed.

Lemma restartGame_page_state sp : (restartGame_page sp).1 = restartGame sp.1.
Proof. by destruct sp. Qed.

Lemma page_reachable_state sp : page_reachable sp → reachable sp.1.
Proof.
  induction 1 as [p|event sp _ IH|sp _ IH].
  - apply reach_init.
  - rewrite handleCellClick_page_state. apply (reach_step _ (Click event) IH).
  - rewrite restartGame_page_state. apply (reach_step _ Restart IH).
Qed.

Lemma up_to_date_restart sp : up_to_date (restartGame_page sp).
Proof.
  destruct sp as [s p]. unfold up_to_date. simpl.
  split; [apply renderBoard_idemp|]. split; [apply updateTurnDisplay_idemp|].
  split; [|discriminate]. split; [done|]. intros _.
  apply elem_of_classList_add. by left.
Qed.

Lemma up_to_date_click event sp :
  up_to_date sp → up_to_date (handleCellClick_page event sp).
Proof.
  destruct sp as [s p]. intros (Hcells & Hturn & Hhid & Hmsg).
  simpl in Hcells, Hturn, Hhid, Hmsg.
  unfold handleCellClick_page.
  destruct (negb (target_is_cell event)); [done|].
  destruct (gameOver s || _) eqn:Hguard; [done|].
  apply orb_false_iff in Hguard as [Hg _]. clear Hmsg.
  destruct (gameOver (handleCellClick event s)) eqn:Hover.
  - simpl.
    destruct (showMessage (handleCellClick event s) (messageOverlayEl p)
                (messageTextEl p)) as [overlay text] eqn:Hshow.
    unfold up_to_date. simpl.
    split; [apply renderBoard_idemp|]. split; [apply updateTurnDisplay_idemp|].
    rewrite Hover. split.
    + split; [|discriminate]. intros Hin. exfalso.
      pose proof (showMessage_overlay (handleCellClick event s)
                    (messageOverlayEl p) (messageTextEl p)) as Hno.
      rewrite Hshow in Hno. done.
    + intros _.
      pose proof (showMessage_idemp (handleCellClick event s)
                    (messageOverlayEl p) (messageTextEl p)) as Hid.
      by rewrite Hshow in Hid.
  - unfold up_to_date. simpl.
    split; [apply renderBoard_idemp|]. split; [apply updateTurnDisplay_idemp|].
    rewrite Hover. split; [|discriminate]. split; [done|]. intros _.
    by apply Hhid.
Qed.

Lemma page_reachable_up_to_date sp : page_reachable sp → up_to_date sp.
Proof.
  induction 1 as [p|event sp _ IH|sp _ IH].
  - apply up_to_date_restart.
  - by apply up_to_date_click.
  - apply up_to_date_restart.
Qed.


(** X11: after the script has loaded and after every handler call the page
    is up to date with the state: drawing the board, the turn display and
    (when the game is over) the message again would change nothing, and the
    overlay carries [hidden] exactly while the game is not over. *)
Theorem page_shows_state (sp : State * Page) :
  page_reachable sp →
  reachable sp.1
  ∧ renderBoard sp.1 (cells sp.2) = cells sp.2
  ∧ updateTurnDisplay sp.1 (turnDisplayEl sp.2) = turnDisplayEl sp.2
  ∧ ("hidden"%string ∈ classList (messageOverlayEl sp.2) ↔ gameOver sp.1 = false)
  ∧ (gameOver sp.1 = true →
       showMessage sp.1 (messageOverlayEl sp.2) (messageTextEl sp.2)
       = (messageOverlayEl sp.2, messageTextEl sp.2)).
Proof.
  intros Hr. split; [by apply page_reachable_state|].
  by apply page_reachable_up_to_date.
Qed.

(** ** What the turn display says *)

(** X12: after [updateTurnDisplay] the element carries exactly one of the
    classes [player-x], [player-o], [game-over], the one that fits the
    state, whatever it carried before; every other class is kept as it
    was. *)
Theorem turn_display_one_state_class (s : State) (el : Element) :
  ("game-over"%string ∈ classList (updateTurnDisplay s el) ↔ gameOver s = true)
  ∧ ("player-x"%string ∈ classList (updateTurnDisplay s el)
       ↔ gameOver s = false ∧ currentPlayer s = X)
  ∧ ("player-o"%string ∈ classList (updateTurnDisplay s el)
       ↔ gameOver s = false ∧ currentPlayer s = O)
  ∧ ∀ t, t ∉ ["player-x"; "player-o"; "game-over"]%string →
      (t ∈ classList (updateTurnDisplay s el) ↔ t ∈ classList el).
Proof.
  unfold updateTurnDisplay.
  destruct (gameOver s); [destruct (winner s)|destruct (currentPlayer s)];
    simpl; split_and!; try intros t;
    rewrite ?elem_of_classList_add, ?elem_of_classList_remove,
      ?elem_of_cons, ?elem_of_nil;
    naive_solver.
Qed.

Lemma mover_double k : mover (k + k) = X.
Proof.
  unfold mover. rewrite Nat.even_add. by destruct (Nat.even k).
Qed.

Lemma mover_double_S k : mover (k + 1 + k) = O.
Proof.
  replace (k + 1 + k) with (S (k + k)) by lia. by rewrite mover_S, mover_double.
Qed.

(** X13: in a reachable state the turn display tells the truth.  With a
    completed line of marker [m] on the board it reads ["Player m wins!"];
    with a full board and no completed line it reads ["It's a draw!"];
    otherwise it names the player to move, who is ['X'] when the number of
    markers on the board is even and ['O'] when it is odd. *)
Theorem turn_display_tells_result (s : State) (el : Element) :
  reachable s →
  (∀ l m, l ∈ WIN_LINES → line_complete (board s) l m →
     textContent (updateTurnDisplay s el)
     = "Player " +:+ marker_string m +:+ " wins!")
  ∧ (¬ winning_line_exists (board s) → board_full (board s) →
       textContent (updateTurnDisplay s el) = "It's a draw!"%string)
  ∧ (¬ winning_line_exists (board s) → ¬ board_full (board s) →
       textContent (updateTurnDisplay s el)
       = "Player "
         +:+ marker_string (mover (count X (board s) + count O (board s)))
         +:+ "'s turn").
Proof.
  intros Hr. pose proof (reachable_invariant s Hr) as Hinv.
  pose proof (invariant_gameOver s Hinv) as Hover.
  split; [|split].
  - intros l m Hl Hc.
    assert (winning_line_exists (board s)) as Hex by by exists l, m.
    assert (gameOver s = true) as Hg by (apply Hover; by left).
    pose proof (reachable_lines_hold_mover s Hr l m Hl Hc) as ->.
    apply checkWinner_Some in Hex as [r Hr'].
    destruct Hinv as [_ Hw _ _ _].
    apply scan_lines_Some in Hr' as Hscan.
    destruct Hscan as (k & Hk & Hwin%line_winner_Some & _).
    assert (res_winner r = currentPlayer s) as Hrw.
    { eapply reachable_lines_hold_mover; [done| |done].
      apply list_elem_of_lookup. by exists k. }
    unfold updateTurnDisplay. by rewrite Hg, Hw, Hr', <- Hrw.
  - intros Hno Hfull.
    assert (gameOver s = true) as Hg by (apply Hover; by right).
    destruct Hinv as [_ Hw _ _ _].
    apply checkWinner_None in Hno. rewrite Hno in Hw.
    unfold updateTurnDisplay. by rewrite Hg, Hw.
  - intros Hno Hnf.
    assert (gameOver s = false) as Hg.
    { destruct (gameOver s); [|done]. destruct Hover as [[?|?] _]; done. }
    destruct Hinv as [_ _ _ _ Hturn]. rewrite Hg in Hturn.
    unfold updateTurnDisplay. rewrite Hg. simpl.
    destruct Hturn as [[-> ->]|[-> ->]].
    + by rewrite mover_double.
    + by rewrite mover_double_S.
Qed.

Lemma turn_display_tells_result_witness :
  let s := run (restartGame initial_state)
               (map (fun i => Click (click_cell i)) [0; 3; 1; 4; 2]) in
  reachable s
  ∧ textContent (updateTurnDisplay s (mkElement [] EmptyString false))
    = "Player X wins!"%string.
Proof.
  intros s.
  assert (reachable s) as Hr by apply reachable_run.
  split; [exact Hr|].
  destruct (turn_display_tells_result s (mkElement [] EmptyString false) Hr)
    as (Hwin & _ & _).
  apply (Hwin (0, 1, 2) X); [apply list_elem_of_here|].
  repeat split; vm_compute; reflexivity.
Defined.

Lemma page_shows_state_witness :
  let p := mkPage (mkElement [] EmptyString false)
                  (mkElement [] EmptyString false)
                  (mkElement [] EmptyString false)
                  (replicate 9 (mkElement ["cell"%string] EmptyString false)) in
  let sp := handleCellClick_page (click_cell 4)
              (restartGame_page (initial_state, p)) in
  page_reachable sp
  ∧ reachable sp.1
  ∧ renderBoard sp.1 (cells sp.2) = cells sp.2
  ∧ updateTurnDisplay sp.1 (turnDisplayEl sp.2) = turnDisplayEl sp.2
  ∧ ("hidden"%string ∈ classList (messageOverlayEl sp.2) ↔ gameOver sp.1 = false)
  ∧ (gameOver sp.1 = true →
       showMessage sp.1 (messageOverlayEl sp.2) (messageTextEl sp.2)
       = (messageOverlayEl sp.2, messageTextEl sp.2)).
Proof.
  intros p sp.
  assert (page_reachable sp) as Hr by (apply page_click, page_init).
  split; [exact Hr|]. exact (page_shows_state sp Hr).
Defined.

(** ** What the cells show *)

Lemma render_cell_winning s i cell :
  "winning"%string ∈ classList (render_cell s i cell)
  ↔ ∃ l, winningLine s = Some l ∧ line_includes l i = true.
Proof.
  assert (∀ cl, cl = ["cell"%string] ∨ (∃ m, cl = classList_add (toLowerCase m) ["cell"%string]) →
                "winning"%string ∉ cl) as Hbase.
  { intros cl [->|[m ->]].
    - rewrite elem_of_cons, elem_of_nil. naive_solver.
    - rewrite elem_of_classList_add, elem_of_cons, elem_of_nil.
      destruct m; naive_solver. }
  unfold render_cell. simpl.
  set (cl := match get (board s) i with
             | JMarker m => classList_add (toLowerCase m) ["cell"%string]
             | _ => ["cell"%string]
             end).
  assert ("winning"%string ∉ cl) as Hcl.
  { apply Hbase. unfold cl. destruct (get (board s) i); eauto. }
  destruct (winningLine s) as [l|].
  - destruct (line_includes l i) eqn:Hinc.
    + rewrite elem_of_classList_add. split; [eauto|by left].
    + split; [done|]. intros (l0 & [= <-] & Ht). congruence.
  - split; [done|]. intros (l0 & Hd & _). discriminate.
Qed.

Lemma line_includes_true l i :
  line_includes l i = true ↔ i = l.1.1 ∨ i = l.1.2 ∨ i = l.2.
Proof.
  destruct l as [[a b] c]. unfold line_includes. simpl.
  rewrite !orb_true_iff, !bool_decide_eq_true. tauto.
Qed.

Lemma reachable_winningLine s l :
  reachable s → winningLine s = Some l →
  l ∈ WIN_LINES ∧ ∃ m, winner s = Some m ∧ line_complete (board s) l m.
Proof.
  intros [_ Hw Hl _ _]%reachable_invariant. rewrite Hw, Hl.
  destruct (checkWinner s) as [r|] eqn:Hc; simpl; [|discriminate].
  intros [= <-]. apply scan_lines_Some in Hc as (k & Hk & Hwin & _).
  split; [apply list_elem_of_lookup; by exists k|].
  exists (res_winner r). split; [done|]. by apply line_winner_Some.
Qed.

Lemma length_filter_cons {A} (P : A → Prop) `{∀ x, Decision (P x)} x l :
  length (filter P (x :: l)) = (if decide (P x) then 1 else 0) + length (filter P l).
Proof. rewrite filter_cons. by destruct (decide (P x)). Qed.

Lemma render_cell_winning_indicator s i cell :
  (if decide ("winning"%string ∈ classList (render_cell s i cell)) then 1 else 0)
  = match winningLine s with
    | Some l => if line_includes l i then 1 else 0
    | None => 0
    end.
Proof.
  pose proof (render_cell_winning s i cell) as Hw.
  destruct (decide _) as [Hin|Hnin].
  - apply Hw in Hin as (l & -> & ->). done.
  - destruct (winningLine s) as [l|]; [|done].
    destruct (line_includes l i) eqn:Hinc; [|done].
    destruct Hnin. apply Hw. eauto.
Qed.

(** X14: when [renderBoard] draws a reachable state on the nine cells of
    the page, exactly three cells get the class [winning] if there is a
    winner and none otherwise; each such cell lies on [winningLine], shows
    the winner's marker and carries the winner's class. *)
Theorem winning_cells_are_the_line (s : State) (cells : list Element) :
  reachable s →
  length cells = 9 →
  length (filter (fun el => "winning"%string ∈ classList el) (renderBoard s cells))
  = match winner s with Some _ => 3 | None => 0 end
  ∧ ∀ i el, renderBoard s cells !! i = Some el →
      "winning"%string ∈ classList el →
      ∃ l m, winningLine s = Some l ∧ line_includes l i = true
             ∧ winner s = Some m
             ∧ textContent el = marker_string m
             ∧ toLowerCase m ∈ classList el.
Proof.
  intros Hr Hlen. split.
  - do 9 (destruct cells as [|? cells]; [simpl in Hlen; lia|]).
    destruct cells; [clear Hlen|simpl in Hlen; lia].
    unfold renderBoard. simpl.
    rewrite !length_filter_cons, !render_cell_winning_indicator, filter_nil.
    destruct (winningLine s) as [l|] eqn:Hline.
    + destruct (reachable_winningLine s l Hr Hline) as (Hl & m & Hw & _).
      rewrite Hw. unfold WIN_LINES in Hl.
      repeat (apply elem_of_cons in Hl as [->|Hl]); try reflexivity.
      by apply elem_of_nil in Hl.
    + destruct (reachable_invariant s Hr) as [_ Hw Hl' _ _].
      rewrite Hl' in Hline. rewrite Hw.
      by destruct (checkWinner s).
  - intros i el Hi Hwin. unfold renderBoard in Hi.
    rewrite list_lookup_imap in Hi.
    destruct (cells !! i) as [c|]; [|discriminate]. simpl in Hi.
    injection Hi as <-.
    apply render_cell_winning in Hwin as (l & Hline & Hinc).
    destruct (reachable_winningLine s l Hr Hline) as (_ & m & Hw & Hc).
    exists l, m. split; [done|]. split; [done|]. split; [done|].
    assert (get (board s) i = JMarker m) as Hget.
    { apply get_JMarker. apply line_includes_true in Hinc.
      destruct Hc as (H1 & H2 & H3). by destruct Hinc as [-> | [-> | ->]]. }
    unfold render_cell. rewrite Hget, Hline, Hinc. simpl. split; [done|].
    rewrite !elem_of_classList_add. right. by left.
Qed.

Lemma winning_cells_are_the_line_witness :
  let s := run (restartGame initial_state)
               (map (fun i => Click (click_cell i)) [0; 3; 1; 4; 2]) in
  let cells := replicate 9 (mkElement ["cell"%string] EmptyString false) in
  (reachable s ∧ length cells = 9)
  ∧ length (filter (fun el => "winning"%string ∈ classList el)
                   (renderBoard s cells)) = 3.
Proof.
  intros s cells.
  assert (reachable s) as Hr by apply reachable_run.
  assert (length cells = 9) as Hlen by reflexivity.
  split; [split; [exact Hr|exact Hlen]|].
  exact (proj1 (winning_cells_are_the_line s cells Hr Hlen)).
Defined.

(** X15: at any time after loading, every cell of the page shows the
    marker of its board cell (or nothing) and is disabled exactly when the
    game is over; while the game runs the overlay is hidden, and when it is
    over the overlay is shown and its text is the text of the turn
    display. *)
Theorem page_mirrors_state (sp : State * Page) :
  page_reachable sp →
  (∀ i el, cells sp.2 !! i = Some el →
     disabled el = gameOver sp.1
     ∧ textContent el = (match get (board sp.1) i with
                         | JMarker m => marker_string m
                         | JUndefined | JNull => EmptyString
                         end))
  ∧ (gameOver sp.1 = false → "hidden"%string ∈ classList (messageOverlayEl sp.2))
  ∧ (gameOver sp.1 = true →
       ("hidden"%string ∉ classList (messageOverlayEl sp.2))
       ∧ textContent (messageTextEl sp.2) = textContent (turnDisplayEl sp.2)).
Proof.
  intros (Hcells & Hturn & Hhid & Hmsg)%page_reachable_up_to_date.
  destruct sp as [s p]. simpl in *. split; [|split].
  - intros i el Hi. rewrite <- Hcells in Hi. unfold renderBoard in Hi.
    rewrite list_lookup_imap in Hi.
    destruct (cells p !! i) as [c|]; [|discriminate].
    injection Hi as <-. done.
  - intros Hg. by apply Hhid.
  - intros Hg. split.
    + intros Hin%Hhid. congruence.
    + specialize (Hmsg Hg). rewrite <- Hturn.
      apply (f_equal snd) in Hmsg. simpl in Hmsg. rewrite <- Hmsg.
      unfold showMessage, updateTurnDisplay. rewrite Hg.
      by destruct (winner s).
Qed.

Lemma page_mirrors_state_witness :
  let p := mkPage (mkElement [] EmptyString false)
                  (mkElement [] EmptyString false)
                  (mkElement [] EmptyString false)
                  (replicate 9 (mkElement ["cell"%string] EmptyString false)) in
  let sp := handleCellClick_page (click_cell 4)
              (restartGame_page (initial_state, p)) in
  page_reachable sp
  ∧ (∀ i el, cells sp.2 !! i = Some el →
       disabled el = gameOver sp.1
       ∧ textContent el = (match get (board sp.1) i with
                           | JMarker m => marker_string m
                           | JUndefined | JNull => EmptyString
                           end))
  ∧ (gameOver sp.1 = false → "hidden"%string ∈ classList (messageOverlayEl sp.2))
  ∧ (gameOver sp.1 = true →
       ("hidden"%string ∉ classList (messageOverlayEl sp.2))
       ∧ textContent (messageTextEl sp.2) = textContent (turnDisplayEl sp.2)).
Proof.
  intros p sp.
  assert (page_reachable sp) as Hr by (apply page_click, page_init).
  split; [exact Hr|]. exact (page_mirrors_state sp Hr).
Defined.

(** ** The theme and its storage *)







Lemma initTheme_try_unlisted ls v :
  v ∉ THEMES →
  ls THEME_STORAGE_KEY = Returned (Some v) →
  initTheme_try ls = Returned "dark"%string.
Proof.
  intros Hv Hls. unfold initTheme_try. rewrite Hls.
  destruct (includes THEMES (or_dark (Some v))) eqn:Hin; simpl; [|done].
  destruct (String.string_dec v EmptyString) as [->|Hne]; [done|].
  rewrite (or_dark_Some _ Hne) in Hin. by apply includes_true in Hin.
Qed.

(** X19: [handleThemeChange] applies and stores whatever the selector
    holds, without checking it against the allow-list; the check happens on
    loading: if the stored choice is not one of the six themes (and the
    storage does not throw), the next [initTheme] shows ['dark'] and
    overwrites the stored value with ['dark']. *)
Theorem unlisted_choice_falls_back (d d' : ThemeDoc) :
  themeSelect_value d ∉ THEMES →
  set_throws (localStorage d) = false →
  get_throws (localStorage d) = false →
  localStorage d' = localStorage (handleThemeChange d) →
  data_theme (handleThemeChange d) = Some (themeSelect_value d)
  ∧ items (localStorage (handleThemeChange d)) !! THEME_STORAGE_KEY
    = Some (themeSelect_value d)
  ∧ data_theme (initTheme_page d') = Some "dark"%string
  ∧ items (localStorage (initTheme_page d')) !! THEME_STORAGE_KEY
    = Some "dark"%string.
Proof.
  intros Hv Hset Hget Hls.
  assert (localStorage d'
          = {| items := <[THEME_STORAGE_KEY := themeSelect_value d]>
                          (items (localStorage d));
               get_throws := false; set_throws := false |}) as Hd'.
  { rewrite Hls. unfold handleThemeChange, applyTheme, setItem. simpl.
    by rewrite Hset, Hget. }
  split; [done|]. split.
  { rewrite <- Hls, Hd'. simpl. by rewrite lookup_insert_eq. }
  assert (initTheme_try (getItem (localStorage d')) = Returned "dark"%string)
    as Htry.
  { apply (initTheme_try_unlisted _ (themeSelect_value d)); [done|].
    unfold getItem. rewrite Hd'. simpl. by rewrite lookup_insert_eq. }
  unfold initTheme_page. rewrite Htry. unfold applyTheme, setItem. simpl.
  rewrite Hd'. simpl. split; [done|]. by rewrite lookup_insert_eq.
Qed.

Lemma unlisted_choice_falls_back_witness :
  let d := mkThemeDoc None "neon" (mkLocalStorage ∅ false false) in
  let d' := mkThemeDoc None EmptyString (localStorage (handleThemeChange d)) in
  (themeSelect_value d ∉ THEMES)
  ∧ data_theme (handleThemeChange d) = Some "neon"%string
  ∧ data_theme (initTheme_page d') = Some "dark"%string
  ∧ items (localStorage (initTheme_page d')) !! THEME_STORAGE_KEY
    = Some "dark"%string.
Proof.
  intros d d'.
  assert (themeSelect_value d ∉ THEMES) as Hv.
  { intros Hin%includes_true. discriminate Hin. }
  split; [exact Hv|].
  destruct (unlisted_choice_falls_back d d' Hv eq_refl eq_refl eq_refl)
    as (Ha & _ & Hb & Hc).
  split; [exact Ha|]. split; [exact Hb|exact Hc].
Defined.
